(** * Motion-triggered capture pipeline: detector, recorder and GIF encoder

    A shallow embedding of the motion detection and clip recording code of
    the chat page ([detectMotion], [checkForMotion], [getFrameDifference],
    [startRecording], [generateGif], [displayGif]) and the properties of
    it that the design document states. *)

From Equations Require Import Equations.
From Stdlib Require Import ZArith QArith Lia.
From stdpp Require Import base option list strings.

Set Default Proof Using "Type".
Local Open Scope Z_scope.

(** ** JavaScript numbers, as far as the detector uses them

    [getFrameDifference] only adds absolute differences of array elements.
    An element read inside the array is an integer in 0..255; a read past
    the end is [undefined], and arithmetic on it gives NaN, which then
    absorbs every later addition and fails every comparison.  The sums stay
    far below 2^53 (at most 765 per pixel), so the doubles of the program
    are exact integers and [Z] loses nothing. *)
Module Js.

Inductive number : Type :=
| Int (z : Z)
| NaN.

(** [a - b] on two array reads; [None] is [undefined]. *)
Definition sub (a b : option Z) : number :=
  match a, b with
  | Some x, Some y => Int (x - y)
  | _, _ => NaN
  end.

Definition abs (n : number) : number :=
  match n with
  | Int z => Int (Z.abs z)
  | NaN => NaN
  end.

Definition add (a b : number) : number :=
  match a, b with
  | Int x, Int y => Int (x + y)
  | _, _ => NaN
  end.

(** [a > c]: false as soon as [a] is NaN. *)
Definition gt (a : number) (c : Z) : bool :=
  match a with
  | Int x => c <? x
  | NaN => false
  end.

End Js.

(** ** Frame differencing *)

(** The [data] of an [ImageData]: a [Uint8ClampedArray], one element per
    channel, four channels per pixel, rows one after the other. *)
Abbreviation Uint8ClampedArray := (list Z).

(** [data[i]] *)
Definition at_index (data : Uint8ClampedArray) (i : nat) : option Z := data !! i.

(** The summand of one loop iteration of [getFrameDifference]. *)
Definition pixelDifference (data1 data2 : Uint8ClampedArray) (i : nat) : Js.number :=
  Js.add
    (Js.add (Js.abs (Js.sub (at_index data1 i) (at_index data2 i)))
            (Js.abs (Js.sub (at_index data1 (i + 1)) (at_index data2 (i + 1)))))
    (Js.abs (Js.sub (at_index data1 (i + 2)) (at_index data2 (i + 2)))).

(** [for (let i = ...; i < data1.length; i += 4) diff += ...], entered with
    the current [i] and [diff]. *)
Equations? getFrameDifference_loop (data1 data2 : Uint8ClampedArray)
    (i : nat) (diff : Js.number) : Js.number by wf (length data1 - i)%nat lt :=
  getFrameDifference_loop data1 data2 i diff with lt_dec i (length data1) => {
    | left _ :=
        getFrameDifference_loop data1 data2 (i + 4)
          (Js.add diff (pixelDifference data1 data2 i));
    | right _ := diff }.
Proof. lia. Qed.

Definition getFrameDifference (data1 data2 : Uint8ClampedArray) : Js.number :=
  getFrameDifference_loop data1 data2 0 (Js.Int 0).

(** ** Frames as the design document describes them *)

(** One pixel of a 4-channel raster. *)
Record Pixel : Type := mkPixel { red : Z; green : Z; blue : Z; alpha : Z }.

Definition channels (p : Pixel) : list Z := [red p; green p; blue p; alpha p].

(** The row-major buffer of a frame given pixel by pixel. *)
Definition raster (frame : list Pixel) : Uint8ClampedArray :=
  concat (channels <$> frame).

Definition rgb (p : Pixel) : Z * Z * Z := (red p, green p, blue p).

(** |R1-R2| + |G1-G2| + |B1-B2| *)
Definition channelDelta (p q : Pixel) : Z :=
  Z.abs (red p - red q) + Z.abs (green p - green q) + Z.abs (blue p - blue q).

(** The DifferenceSample of the design document: the sum of [channelDelta]
    over all pixels of two frames of the same dimensions. *)
Fixpoint DifferenceSample (frame1 frame2 : list Pixel) : Z :=
  match frame1, frame2 with
  | p :: rest1, q :: rest2 => channelDelta p q + DifferenceSample rest1 rest2
  | _, _ => 0
  end.

(** ** The motion detector *)

(** What [context.getImageData] hands back; the canvas is always
    [width] x [height]. *)
Definition width : nat := 649.
Definition height : nat := 480.

Record ImageData : Type := mkImageData { data : Uint8ClampedArray }.

(** The closure variables of one [detectMotion] call. *)
Record Detector : Type := mkDetector {
  lastImageData : option ImageData;
  motionDetected : bool
}.

Definition detectMotion : Detector :=
  {| lastImageData := None; motionDetected := false |}.

(** What one timer tick finds when it asks the track for its element. *)
Inductive Source : Type :=
| Detached                       (* no track, or no [getElement] on it yet *)
| NotVideo                       (* [getElement()] is null or no video element *)
| Sampled (imageData : ImageData). (* drawn and read back from the canvas *)

Inductive Effect : Type :=
| ConsoleError (msg : string)
| ConsoleLog (msg : string)
| Callback
| StartRecording
| Alert (msg : string).

Definition motionThreshold : Z := 7718920.

Definition checkForMotion (isLocal : bool) (src : Source) (st : Detector)
  : Detector * list Effect :=
  match src with
  | Detached => (st, [])
  | NotVideo => (st, [ConsoleError "Expected HTMLVideoElement, got:"])
  | Sampled imageData =>
      let '(latch, effects) :=
        match lastImageData st with
        | Some last =>
            let diff := getFrameDifference (data imageData) (data last) in
            if Js.gt diff 7718920 && negb (motionDetected st) then
              (true,
               Callback ::
               (if isLocal
                then [ConsoleLog "Motion detected for local user."; StartRecording]
                else [ConsoleLog "Motion detected for remote user."]))
            else (motionDetected st, [])
        | None => (motionDetected st, [])
        end in
      ({| lastImageData := Some imageData; motionDetected := latch |}, effects)
  end.

(** The interval timer: one [checkForMotion] per element of [srcs]; the
    result lists the effects of every tick. *)
Fixpoint ticks (isLocal : bool) (srcs : list Source) (st : Detector)
  : list (list Effect) :=
  match srcs with
  | [] => []
  | src :: rest =>
      let '(st', effects) := checkForMotion isLocal src st in
      effects :: ticks isLocal rest st'
  end.

Definition is_Callback (e : Effect) : bool :=
  match e with Callback => true | _ => false end.

(** Number of detection events among the effects of a tick. *)
Definition detections (effects : list Effect) : nat :=
  length (filter (fun e => is_Callback e = true) effects).

(** *** The sampled sequence, independently of the detector's variables *)

(** The sample a tick is compared against: the latest frame sampled
    before it. *)
Definition sampleOf (src : Source) (prev : option ImageData) : option ImageData :=
  match src with
  | Sampled imageData => Some imageData
  | _ => prev
  end.

(** Whether the tick's sample differs from the previous sample by strictly
    more than the threshold. *)
Definition aboveThreshold (src : Source) (prev : option ImageData) : bool :=
  match src, prev with
  | Sampled cur, Some last =>
      Js.gt (getFrameDifference (data cur) (data last)) motionThreshold
  | _, _ => false
  end.

Fixpoint aboveThresholdTicks (srcs : list Source) (prev : option ImageData)
  : list bool :=
  match srcs with
  | [] => []
  | src :: rest => aboveThreshold src prev :: aboveThresholdTicks rest (sampleOf src prev)
  end.

(** Where the detector reports: one event on the first tick that is above
    the threshold, none on any other tick. *)
Fixpoint firstOnly (above : list bool) : list nat :=
  match above with
  | [] => []
  | true :: rest => 1%nat :: replicate (length rest) 0%nat
  | false :: rest => 0%nat :: firstOnly rest
  end.

(** The detector's variables after the ticks [srcs]. *)
Fixpoint detectorAfter (isLocal : bool) (srcs : list Source) (st : Detector)
  : Detector :=
  match srcs with
  | [] => st
  | src :: rest => detectorAfter isLocal rest (fst (checkForMotion isLocal src st))
  end.

Definition is_Sampled (src : Source) : bool :=
  match src with Sampled _ => true | _ => false end.

(** *** The detector of the older page

    [pages/index.tsx] carries an earlier [detectMotion]: the same sampling
    and the same [getFrameDifference], but no [motionDetected] variable
    and no recording; after the callback it raises an alert of its own. *)
Module PagesIndex.

Definition checkForMotion (isLocal : bool) (src : Source)
    (lastImageData : option ImageData) : option ImageData * list Effect :=
  match src with
  | Detached => (lastImageData, [])
  | NotVideo => (lastImageData, [ConsoleError "Expected HTMLVideoElement, got:"])
  | Sampled imageData =>
      (Some imageData,
       match lastImageData with
       | Some last =>
           let diff := getFrameDifference (data imageData) (data last) in
           if Js.gt diff 7718920 then
             [Callback; if isLocal then Alert "You moved" else Alert "User moved"]
           else []
       | None => []
       end)
  end.

Fixpoint ticks (isLocal : bool) (srcs : list Source)
    (lastImageData : option ImageData) : list (list Effect) :=
  match srcs with
  | [] => []
  | src :: rest =>
      let '(last', effects) := checkForMotion isLocal src lastImageData in
      effects :: ticks isLocal rest last'
  end.

End PagesIndex.

(** *** The two reference frames of the saturation scenario *)

Definition blackFrame : list Pixel :=
  replicate (width * height) (mkPixel 0 0 0 0).

(** Red saturated, green and blue as in [blackFrame], any alpha. *)
Definition redFrame (a : Z) : list Pixel :=
  replicate (width * height) (mkPixel 255 0 0 a).

(** ** Recording and encoding

    The module-level variables [mediaRecorder] and [recordedChunks], the
    browser objects the code creates (recorders, one-shot timers, video
    elements, GIF encoders) and what reaches the console and the page are
    kept in one [World].  Objects live in creation order in a list and are
    named by their position, so that two references to the same object
    stay aliases. *)

Abbreviation Blob := (list Byte.byte).

Definition size (blob : Blob) : nat := length blob.

(** [new Blob(parts, ...)]: the parts one after the other. *)
Definition newBlob (parts : list Blob) : Blob := concat parts.

Inductive RecordingState : Type := inactive | recording.

#[global] Instance RecordingState_eq_dec : EqDecision RecordingState.
Proof. solve_decision. Defined.

(** The function values the code assigns to the recorder's handlers. *)
Inductive DataHandler : Type := pushChunk.
Inductive StopHandler : Type := callGenerateGif.

Record MediaRecorder : Type := mkMediaRecorder {
  state : RecordingState;
  ondataavailable : option DataHandler;
  onstop : option StopHandler
}.

(** The only callback the code passes to [setTimeout]. *)
Inductive TimerCallback : Type := stopMediaRecorder.

Record Timer : Type := mkTimer { due : N; callback : TimerCallback }.

(** A canvas of the video's size with the current video frame drawn on it. *)
Record Canvas : Type := mkCanvas {
  canvasWidth : nat; canvasHeight : nat; drawn : ImageData
}.

Record GifFrame : Type := mkGifFrame { image : Canvas; delay : Z }.

(** A [GIF] encoder object, seen from the calls the code makes on it: the
    frames handed to [addFrame] and, for every [render()] call, the frames
    it held at that moment. *)
Record GIF : Type := mkGIF {
  workers : nat;
  quality : nat;
  frames : list GifFrame;
  renders : list (list GifFrame)
}.

(** The video element [generateGif] creates.  Its [loadeddata] and [error]
    listeners are there from creation; [timeupdateListeners] holds one
    encoder per listener added after a [play()] promise was fulfilled. *)
Record HTMLVideoElement : Type := mkVideo {
  src : Blob;
  muted : bool;
  paused : bool;
  timeupdateListeners : list GIF
}.

Inductive ConsoleEntry : Type :=
| Log (msg : string)
| Error (msg : string).

Record World : Type := mkWorld {
  now : N;                              (* simulated clock, milliseconds *)
  mediaRecorder : option nat;           (* [let mediaRecorder], undefined at load *)
  recordedChunks : list Blob;           (* [let recordedChunks = []] *)
  recorders : list MediaRecorder;
  timers : list Timer;                  (* pending [setTimeout]s *)
  videos : list HTMLVideoElement;
  gifUrls : list Blob;                  (* [setGifUrl] calls, a URL named by its blob *)
  console : list ConsoleEntry
}.

(** The state when the module has been loaded. *)
Definition initial : World :=
  {| now := 0; mediaRecorder := None; recordedChunks := [];
     recorders := []; timers := []; videos := []; gifUrls := [];
     console := [] |}.

Definition set_now (t : N) (w : World) : World :=
  mkWorld t (mediaRecorder w) (recordedChunks w) (recorders w) (timers w)
          (videos w) (gifUrls w) (console w).
Definition set_mediaRecorder (r : option nat) (w : World) : World :=
  mkWorld (now w) r (recordedChunks w) (recorders w) (timers w)
          (videos w) (gifUrls w) (console w).
Definition set_recordedChunks (chunks : list Blob) (w : World) : World :=
  mkWorld (now w) (mediaRecorder w) chunks (recorders w) (timers w)
          (videos w) (gifUrls w) (console w).
Definition set_recorders (rs : list MediaRecorder) (w : World) : World :=
  mkWorld (now w) (mediaRecorder w) (recordedChunks w) rs (timers w)
          (videos w) (gifUrls w) (console w).
Definition set_timers (ts : list Timer) (w : World) : World :=
  mkWorld (now w) (mediaRecorder w) (recordedChunks w) (recorders w) ts
          (videos w) (gifUrls w) (console w).
Definition set_videos (vs : list HTMLVideoElement) (w : World) : World :=
  mkWorld (now w) (mediaRecorder w) (recordedChunks w) (recorders w) (timers w)
          vs (gifUrls w) (console w).
Definition set_gifUrls (urls : list Blob) (w : World) : World :=
  mkWorld (now w) (mediaRecorder w) (recordedChunks w) (recorders w) (timers w)
          (videos w) urls (console w).
Definition set_console (entries : list ConsoleEntry) (w : World) : World :=
  mkWorld (now w) (mediaRecorder w) (recordedChunks w) (recorders w) (timers w)
          (videos w) (gifUrls w) entries.

Definition console_log (msg : string) (w : World) : World :=
  set_console (console w ++ [Log msg]) w.
Definition console_error (msg : string) (w : World) : World :=
  set_console (console w ++ [Error msg]) w.

(** *** [startRecording] *)

(** [mediaRecorder = new MediaRecorder(stream, ...)]: a fresh inactive
    recorder, and the module variable now names it. *)
Definition newMediaRecorder (w : World) : World :=
  set_mediaRecorder (Some (length (recorders w)))
    (set_recorders (recorders w ++ [mkMediaRecorder inactive None None]) w).

(** An update of the object [mediaRecorder] currently names. *)
Definition onMediaRecorder (f : MediaRecorder -> MediaRecorder) (w : World) : World :=
  match mediaRecorder w with
  | Some r => set_recorders (alter f r (recorders w)) w
  | None => w
  end.

Definition assign_ondataavailable (h : DataHandler) (rec : MediaRecorder) : MediaRecorder :=
  mkMediaRecorder (state rec) (Some h) (onstop rec).
Definition assign_onstop (h : StopHandler) (rec : MediaRecorder) : MediaRecorder :=
  mkMediaRecorder (state rec) (ondataavailable rec) (Some h).

(** [start()] on an inactive recorder, [stop()] on any: a recorder that is
    already inactive stays as it is. *)
Definition start (rec : MediaRecorder) : MediaRecorder :=
  mkMediaRecorder recording (ondataavailable rec) (onstop rec).
Definition stop (rec : MediaRecorder) : MediaRecorder :=
  mkMediaRecorder inactive (ondataavailable rec) (onstop rec).

Definition recordingDuration : N := 5000.

Definition setTimeout (cb : TimerCallback) (ms : N) (w : World) : World :=
  set_timers (timers w ++ [mkTimer (now w + ms) cb]) w.

(** [videoElement] tells whether [videoTrack.getElement()] gave an element. *)
Definition startRecording (videoElement : bool) (w : World) : World :=
  if negb videoElement then
    console_error "No video element found for recording." w
  else
    let w := console_log "Starting recording..." w in
    let w := newMediaRecorder w in
    let w := onMediaRecorder (assign_ondataavailable pushChunk) w in
    let w := onMediaRecorder (assign_onstop callGenerateGif) w in
    let w := onMediaRecorder start w in
    setTimeout stopMediaRecorder 5000 w.

(** The [ondataavailable] function. *)
Definition dataavailable (eventData : Blob) (w : World) : World :=
  if decide (0 < size eventData)%nat then
    console_log "Data available:"
      (set_recordedChunks (recordedChunks w ++ [eventData]) w)
  else w.

(** The callback given to [setTimeout]. *)
Definition stopRecordingTimeout (w : World) : World :=
  onMediaRecorder stop (console_log "Stopping recording..." w).

(** *** [generateGif] and its listeners *)

Inductive Settled : Type := Fulfilled | Rejected.

(** The body of [generateGif] up to the registration of the listeners; an
    async function that awaits and throws nothing returns a fulfilled
    promise. *)
Definition generateGif (w : World) : World * Settled :=
  let w := console_log "Generating GIF..." w in
  let videoBlob := newBlob (recordedChunks w) in
  let video := mkVideo videoBlob true true [] in
  let w := set_videos (videos w ++ [video]) w in
  (console_log "Video URL created:" w, Fulfilled).

Definition onVideo (v : nat) (f : HTMLVideoElement -> HTMLVideoElement) (w : World) : World :=
  set_videos (alter f v (videos w)) w.

Definition set_paused (b : bool) (video : HTMLVideoElement) : HTMLVideoElement :=
  mkVideo (src video) (muted video) b (timeupdateListeners video).
Definition set_timeupdateListeners (gs : list GIF) (video : HTMLVideoElement)
  : HTMLVideoElement :=
  mkVideo (src video) (muted video) (paused video) gs.

(** The [loadeddata] listener: log and [video.play()]. *)
Definition loadeddata (v : nat) (w : World) : World :=
  onVideo v (set_paused false) (console_log "Video loaded, starting playback..." w).

(** The function given to [video.play().then]: a new encoder and a
    [timeupdate] listener that feeds it. *)
Definition playFulfilled (v : nat) (w : World) : World :=
  onVideo v (fun video =>
    set_timeupdateListeners (timeupdateListeners video ++ [mkGIF 2 10 [] []]) video) w.

Definition addFrame (canvas : Canvas) (frameDelay : Z) (gif : GIF) : GIF :=
  mkGIF (workers gif) (quality gif) (frames gif ++ [mkGifFrame canvas frameDelay])
        (renders gif).
Definition render (gif : GIF) : GIF :=
  mkGIF (workers gif) (quality gif) (frames gif) (renders gif ++ [frames gif]).

Definition captureSeconds : Q := 5 # 1.

(** One [timeupdate] listener, run with the video's [currentTime] and the
    canvas the current frame is drawn on; the result says whether the
    listener paused the video. *)
Definition timeupdateListener (currentTime : Q) (canvas : Canvas) (gif : GIF)
  : GIF * bool :=
  if Qle_bool (5 # 1) currentTime then (render gif, true)
  else (addFrame canvas 100 gif, false).

(** A [timeupdate] event: every listener of the video runs, in the order
    of registration. *)
Definition timeupdate (v : nat) (currentTime : Q) (canvas : Canvas) (w : World) : World :=
  onVideo v (fun video =>
    let results := timeupdateListener currentTime canvas <$> timeupdateListeners video in
    mkVideo (src video) (muted video)
            (if existsb snd results then true else paused video)
            (fst <$> results)) w.

(** The [error] listener of the video. *)
Definition videoError (w : World) : World :=
  console_error "Error loading video:" w.

(** [setGifUrl] is the page's state setter, the display sink of the
    pipeline; the call is kept as the delivery of the artifact. *)
Definition displayGif (url : Blob) (w : World) : World :=
  console_log "Displaying GIF URL: " (set_gifUrls (gifUrls w ++ [url]) w).

(** The [finished] listener of an encoder. *)
Definition gifFinished (blob : Blob) (w : World) : World :=
  displayGif blob (console_log "Generated GIF URL: " w).

(** *** The event loop *)

Inductive Event : Type :=
| CallStartRecording (videoElement : bool) (* the detector calls [startRecording] *)
| Elapse (ms : N)                          (* time passes, due timers fire *)
| DataAvailable (r : nat) (eventData : Blob) (* [dataavailable] at recorder [r] *)
| Stop (r : nat)                           (* [stop] event at recorder [r] *)
| LoadedData (v : nat)
| PlayFulfilled (v : nat)
| PlayRejected (v : nat)
| TimeUpdate (v : nat) (currentTime : Q) (canvas : Canvas)
| VideoError (v : nat)
| Finished (blob : Blob).                  (* an encoder emits [finished] *)

Definition fire (t : Timer) (w : World) : World :=
  match callback t with
  | stopMediaRecorder => stopRecordingTimeout w
  end.

(** The clock moves on by [ms]; the timers that are due fire in the order
    they were set (all carry the same delay) and are gone afterwards. *)
Definition elapse (ms : N) (w : World) : World :=
  let t := (now w + ms)%N in
  let dueNow := filter (fun timer => (due timer <= t)%N) (timers w) in
  let later := filter (fun timer => ~ (due timer <= t)%N) (timers w) in
  foldl (fun w timer => fire timer w) (set_timers later (set_now t w)) dueNow.

Definition handle (e : Event) (w : World) : World :=
  match e with
  | CallStartRecording videoElement => startRecording videoElement w
  | Elapse ms => elapse ms w
  | DataAvailable r eventData =>
      match recorders w !! r ≫= ondataavailable with
      | Some pushChunk => dataavailable eventData w
      | None => w
      end
  | Stop r =>
      match recorders w !! r ≫= onstop with
      | Some callGenerateGif => fst (generateGif w)
      | None => w
      end
  | LoadedData v => if decide (v < length (videos w))%nat then loadeddata v w else w
  | PlayFulfilled v => playFulfilled v w
  | PlayRejected v => w
  | TimeUpdate v currentTime canvas => timeupdate v currentTime canvas w
  | VideoError v => if decide (v < length (videos w))%nat then videoError w else w
  | Finished blob => gifFinished blob w
  end.

Definition run (events : list Event) (w : World) : World :=
  foldl (fun w e => handle e w) w events.

(** *** What the browser does with one recording

    A recorder started without a time slice delivers its data when it is
    stopped: after [stop()] the browser fires [dataavailable] with what
    was gathered and then [stop].  [during] allows for chunks it hands
    over while still recording. *)
Definition sessionEvents (r : nat) (during : list Blob) (final : Blob) : list Event :=
  [CallStartRecording true] ++ (DataAvailable r <$> during)
  ++ [Elapse 5000; DataAvailable r final; Stop r].

(** One recording from start to the call of [generateGif]; the recorder it
    creates is the next object. *)
Definition recordingSession (during : list Blob) (final : Blob) (w : World) : World :=
  run (sessionEvents (length (recorders w)) during final) w.

Definition recordingSessions (sessions : list (list Blob * Blob)) (w : World) : World :=
  foldl (fun w s => recordingSession (fst s) (snd s) w) w sessions.

(** The chunks a session's recorder produced. *)
Definition sessionChunks (s : list Blob * Blob) : list Blob := fst s ++ [snd s].

Definition recordingCount (w : World) : nat :=
  length (filter (fun rec => state rec = recording) (recorders w)).

(** A recorder as [startRecording] leaves it. *)
Definition startedRecorder : MediaRecorder :=
  mkMediaRecorder recording (Some pushChunk) (Some callGenerateGif).

(** The chunks the [ondataavailable] function keeps. *)
Definition nonEmpty (chunks : list Blob) : list Blob :=
  filter (fun c => (0 < size c)%nat) chunks.

(** The world once a recording has been started in [w] and its recorder
    has handed over the chunks [during]. *)
Definition whileRecording (during : list Blob) (w : World) : World :=
  run (DataAvailable (length (recorders w)) <$> during) (startRecording true w).

(** The source blobs of the videos that successive sessions make
    [generateGif] build, starting from the buffer [chunks]. *)
Fixpoint clipSources (chunks : list Blob) (sessions : list (list Blob * Blob))
  : list Blob :=
  match sessions with
  | [] => []
  | s :: rest =>
      let chunks' := chunks ++ nonEmpty (sessionChunks s) in
      newBlob chunks' :: clipSources chunks' rest
  end.

(** *** What the browser does with one clip

    [generateGif] is called, the video fires [loadeddata], the [play()]
    promise is fulfilled, and playback sends [timeupdate] notifications,
    each with the playback position and the frame then on display. *)
Definition encodingEvents (v : nat) (updates : list (Q * Canvas)) : list Event :=
  [LoadedData v; PlayFulfilled v]
  ++ ((fun u => TimeUpdate v (fst u) (snd u)) <$> updates).

(** An encoder after the notifications [updates] went through its
    listener. *)
Definition feed (updates : list (Q * Canvas)) (gif : GIF) : GIF :=
  foldl (fun gif u => fst (timeupdateListener (fst u) (snd u) gif)) gif updates.

(** The canvases of the notifications that come before the first one at
    or past 5 seconds; [None] when no notification gets that far. *)
Fixpoint sampledUntilEnd (updates : list (Q * Canvas)) : option (list Canvas) :=
  match updates with
  | [] => None
  | (currentTime, canvas) :: rest =>
      if Qle_bool (5 # 1) currentTime then Some []
      else (fun sampled => canvas :: sampled) <$> sampledUntilEnd rest
  end.

(** The frames of the artifact: what the encoder held at its first
    [render()]. *)
Definition artifactFrames (gif : GIF) : option (list GifFrame) := head (renders gif).

(** Notifications every [1/perSecond] seconds, from the first period up to
    and including [count] periods, all showing [canvas]. *)
Definition periodicUpdates (perSecond : positive) (count : nat) (canvas : Canvas)
  : list (Q * Canvas) :=
  (fun k => (Z.of_nat k # perSecond, canvas)) <$> seq 1 count.

(** A failure reaches the caller of [generateGif] only through the promise
    it gets back: the function takes no callback. *)
Definition surfacesFailure (result : World * Settled) : Prop :=
  snd result = Rejected.

(** One canvas becomes one frame of the GIF. *)
Definition toFrame (canvas : Canvas) : GifFrame := mkGifFrame canvas 100.

(** The artifact made from video [v]: the frames its first encoder held
    at the first [render()]. *)
Definition artifactOf (w : World) (v : nat) : option (list GifFrame) :=
  video ← videos w !! v;
  gif ← head (timeupdateListeners video);
  artifactFrames gif.

(** ** Further vocabulary for the properties below *)

(** The channels of a pixel as a [Uint8ClampedArray] holds them. *)
Definition clamped (p : Pixel) : Prop :=
  0 <= red p <= 255 /\ 0 <= green p <= 255 /\ 0 <= blue p <= 255.

Definition is_ConsoleError (e : Effect) : bool :=
  match e with ConsoleError _ => true | _ => false end.

Definition is_StartRecording (e : Effect) : bool :=
  match e with StartRecording => true | _ => false end.

Definition is_NotVideo (src : Source) : bool :=
  match src with NotVideo => true | _ => false end.

(** The frame of a tick that sampled one. *)
Definition sampled (src : Source) : option ImageData :=
  match src with Sampled imageData => Some imageData | _ => None end.

#[global] Instance ConsoleEntry_eq_dec : EqDecision ConsoleEntry.
Proof. solve_decision. Defined.

(** How often [entry] was written to the console. *)
Definition written (entry : ConsoleEntry) (w : World) : nat :=
  length (filter (fun e => e = entry) (console w)).


(** An encoder as the function given to [play().then] creates it. *)
Definition newGIF : GIF := mkGIF 2 10 [] [].

(** Whether a notification is at or past the 5 seconds of the clip. *)
Definition atEnd (u : Q * Canvas) : bool := Qle_bool (5 # 1) (fst u).

(** The recorder created last, as [mediaRecorder] would name it. *)
Definition newestRecorder (w : World) : option nat :=
  match length (recorders w) with
  | O => None
  | S r => Some r
  end.

(** Whether an event can change a recorder, a timer or the clock: only a
    call of [startRecording] and the passing of time can. *)
Definition is_recordingEvent (e : Event) : bool :=
  match e with
  | CallStartRecording _ | Elapse _ => true
  | _ => false
  end.

(** The two console lines that frame a recording. *)
Definition startLog : ConsoleEntry := Log "Starting recording...".
Definition stopLog : ConsoleEntry := Log "Stopping recording...".

(** ** The page: detectors wired to the recorder

    [connectToAgoraRtc] calls [detectMotion] once for the camera track,
    with [isLocal] true, and once for every remote video track that is
    published, with [isLocal] false; each call has its own closure
    variables and its own interval timer, and none is ever cleared. *)

Record Watcher : Type := mkWatcher {
  watchesLocal : bool;          (* [isLocal] *)
  alertText : string;           (* what [callback] alerts *)
  variables : Detector          (* [lastImageData], [motionDetected] *)
}.

Record Page : Type := mkPage {
  watchers : list Watcher;
  alerts : list string;
  world : World
}.

Definition initialPage : Page := mkPage [] [] initial.

(** A call of [detectMotion]; [context] tells whether the canvas gave a
    2d context.  Without one the call logs and sets no interval. *)
Definition callDetectMotion (context isLocal : bool) (text : string) (p : Page)
  : Page :=
  if negb context then
    mkPage (watchers p) (alerts p)
           (console_error "Failed to get canvas context" (world p))
  else
    mkPage (watchers p ++ [mkWatcher isLocal text detectMotion])
           (alerts p) (world p).

(** What an effect of [checkForMotion] does to the page.  The track that
    just gave [checkForMotion] its element gives it to [startRecording]
    too. *)
Definition perform (text : string) (e : Effect) (p : Page) : Page :=
  match e with
  | ConsoleError msg => mkPage (watchers p) (alerts p) (console_error msg (world p))
  | ConsoleLog msg => mkPage (watchers p) (alerts p) (console_log msg (world p))
  | Callback => mkPage (watchers p) (alerts p ++ [text]) (world p)
  | StartRecording => mkPage (watchers p) (alerts p) (startRecording true (world p))
  | Alert msg => mkPage (watchers p) (alerts p ++ [msg]) (world p)
  end.

(** The interval of detector [d] fires and finds [src]. *)
Definition intervalTick (d : nat) (src : Source) (p : Page) : Page :=
  match watchers p !! d with
  | Some watcher =>
      let '(st, effects) :=
        checkForMotion (watchesLocal watcher) src (variables watcher) in
      foldl (fun p e => perform (alertText watcher) e p)
            (mkPage (<[d := mkWatcher (watchesLocal watcher) (alertText watcher) st]>
                       (watchers p))
                    (alerts p) (world p))
            effects
  | None => p
  end.

Inductive PageEvent : Type :=
| DetectMotion (context isLocal : bool) (text : string)
| Interval (d : nat) (src : Source)
| Browser (e : Event).

Definition handlePage (e : PageEvent) (p : Page) : Page :=
  match e with
  | DetectMotion context isLocal text => callDetectMotion context isLocal text p
  | Interval d src => intervalTick d src p
  | Browser e => mkPage (watchers p) (alerts p) (handle e (world p))
  end.

Definition runPage (events : list PageEvent) (p : Page) : Page :=
  foldl (fun p e => handlePage e p) p events.




(** * Properties *)
Example getFrameDifference_two_pixels :
  getFrameDifference [10; 20; 30; 255; 0; 0; 0; 7] [13; 20; 10; 0; 1; 2; 3; 9]
  = Js.Int 29.
Proof. reflexivity. Qed.

Example getFrameDifference_short_second :
  getFrameDifference [10; 20; 30; 255] [13; 20] = Js.NaN.
Proof. reflexivity. Qed.


(** ** Frame differencing *)

Lemma getFrameDifference_loop_step data1 data2 i diff :
  getFrameDifference_loop data1 data2 i diff =
  if decide (i < length data1)%nat
  then getFrameDifference_loop data1 data2 (i + 4)
         (Js.add diff (pixelDifference data1 data2 i))
  else diff.
Proof.
  rewrite getFrameDifference_loop_equation_1.
  destruct (lt_dec i (length data1)); simpl; case_decide; (reflexivity || lia).
Qed.

Lemma at_index_after pre rest k :
  at_index (pre ++ rest) (length pre + k) = rest !! k.
Proof.
  unfold at_index. rewrite lookup_app_r by lia. f_equal. lia.
Qed.

Lemma pixelDifference_raster pre1 pre2 p q rest1 rest2 :
  length pre1 = length pre2 ->
  pixelDifference (pre1 ++ raster (p :: rest1)) (pre2 ++ raster (q :: rest2))
                  (length pre1)
  = Js.Int (channelDelta p q).
Proof.
  intros Hlen. unfold pixelDifference.
  rewrite <- (Nat.add_0_r (length pre1)) at 1 2.
  rewrite Hlen at 2 4 6.
  rewrite !at_index_after. reflexivity.
Qed.

Lemma raster_cons p frame : raster (p :: frame) = channels p ++ raster frame.
Proof. reflexivity. Qed.

Lemma length_raster frame : length (raster frame) = (4 * length frame)%nat.
Proof.
  induction frame as [|p frame IH]; [reflexivity|].
  rewrite raster_cons, length_app, IH. simpl. lia.
Qed.

(** The loop, entered at a pixel boundary, adds the remaining pixels'
    deltas to the running sum. *)
Lemma getFrameDifference_loop_raster frame1 :
  forall frame2 pre1 pre2 acc,
    length pre1 = length pre2 ->
    length frame1 = length frame2 ->
    getFrameDifference_loop (pre1 ++ raster frame1) (pre2 ++ raster frame2)
                            (length pre1) (Js.Int acc)
    = Js.Int (acc + DifferenceSample frame1 frame2).
Proof.
  induction frame1 as [|p frame1 IH]; intros [|q frame2] pre1 pre2 acc Hpre Hlen;
    simplify_eq/=.
  - rewrite getFrameDifference_loop_step.
    rewrite decide_False by (rewrite length_app; simpl; lia).
    f_equal. lia.
  - rewrite getFrameDifference_loop_step.
    rewrite decide_True
      by (rewrite length_app, length_raster; simpl; lia).
    rewrite pixelDifference_raster by assumption. simpl Js.add.
    rewrite !raster_cons, !(app_assoc _ (channels _)).
    replace (length pre1 + 4)%nat with (length (pre1 ++ channels p))
      by (rewrite length_app; reflexivity).
    rewrite IH by (rewrite ?length_app; simpl; lia).
    f_equal. lia.
Qed.

Lemma getFrameDifference_raster frame1 frame2 :
  length frame1 = length frame2 ->
  getFrameDifference (raster frame1) (raster frame2)
  = Js.Int (DifferenceSample frame1 frame2).
Proof.
  intros Hlen. unfold getFrameDifference.
  apply (getFrameDifference_loop_raster frame1 frame2 [] [] 0); auto.
Qed.

Lemma channelDelta_nonneg p q : 0 <= channelDelta p q.
Proof. unfold channelDelta. lia. Qed.

Lemma DifferenceSample_nonneg frame1 :
  forall frame2, 0 <= DifferenceSample frame1 frame2.
Proof.
  induction frame1 as [|p frame1 IH]; intros [|q frame2]; simpl; try lia.
  pose proof (channelDelta_nonneg p q). specialize (IH frame2). lia.
Qed.

Lemma channelDelta_rgb p p' q q' :
  rgb p' = rgb p -> rgb q' = rgb q -> channelDelta p' q' = channelDelta p q.
Proof.
  unfold rgb, channelDelta. intros [= -> -> ->] [= -> -> ->]. reflexivity.
Qed.

Lemma DifferenceSample_rgb frame1 :
  forall frame2 other1 other2,
    rgb <$> other1 = rgb <$> frame1 ->
    rgb <$> other2 = rgb <$> frame2 ->
    DifferenceSample other1 other2 = DifferenceSample frame1 frame2.
Proof.
  induction frame1 as [|p frame1 IH];
    intros [|q frame2] [|p' other1] [|q' other2] H1 H2; simplify_eq/=; auto.
  rewrite (IH frame2 other1 other2) by assumption.
  unfold channelDelta. congruence.
Qed.

(** Every buffer of 4n elements is the raster of n pixels. *)
Lemma raster_surjective (n : nat) :
  forall buffer : Uint8ClampedArray,
    length buffer = (4 * n)%nat -> exists frame, length frame = n /\ raster frame = buffer.
Proof.
  induction n as [|n IH]; intros buffer Hlen.
  - exists []. destruct buffer; [auto | discriminate].
  - destruct buffer as [|r [|g [|b [|a rest]]]]; simpl in Hlen; try lia.
    destruct (IH rest) as (frame & Hn & Hr); [lia|].
    exists (mkPixel r g b a :: frame).
    split; [simpl; lia | rewrite raster_cons, Hr; reflexivity].
Qed.

(** C2: for two frames of the same dimensions in 4-channel row-major
    layout, [getFrameDifference] returns the sum over all pixels of
    |R1-R2| + |G1-G2| + |B1-B2|; the sum is a non-negative integer, and the
    fourth (alpha) channel has no part in it: frames that agree with the
    two on red, green and blue give the same result whatever their alpha
    values. *)
Theorem getFrameDifference_is_DifferenceSample (frame1 frame2 : list Pixel) :
  length frame1 = length frame2 ->
  getFrameDifference (raster frame1) (raster frame2)
    = Js.Int (DifferenceSample frame1 frame2)
  /\ 0 <= DifferenceSample frame1 frame2
  /\ forall other1 other2 : list Pixel,
       rgb <$> other1 = rgb <$> frame1 ->
       rgb <$> other2 = rgb <$> frame2 ->
       getFrameDifference (raster other1) (raster other2)
       = getFrameDifference (raster frame1) (raster frame2).
Proof.
  intros Hlen. split; [|split].
  - apply getFrameDifference_raster, Hlen.
  - apply DifferenceSample_nonneg.
  - intros other1 other2 H1 H2.
    assert (length other1 = length other2) as Hother.
    { rewrite <- (length_fmap rgb other1), <- (length_fmap rgb other2), H1, H2.
      rewrite !length_fmap. exact Hlen. }
    rewrite !getFrameDifference_raster by assumption.
    f_equal. apply DifferenceSample_rgb; assumption.
Qed.

Lemma getFrameDifference_is_DifferenceSample_witness :
  let frame1 := [mkPixel 10 20 30 255; mkPixel 0 0 0 7] in
  let frame2 := [mkPixel 13 20 10 0; mkPixel 1 2 3 9] in
  length frame1 = length frame2
  /\ getFrameDifference (raster frame1) (raster frame2) = Js.Int 29.
Proof.
  intros frame1 frame2. split; [reflexivity|].
  exact (proj1 (getFrameDifference_is_DifferenceSample frame1 frame2 eq_refl)).
Defined.

(** ** The detector *)

Lemma DifferenceSample_diag frame : DifferenceSample frame frame = 0.
Proof.
  induction frame as [|p frame IH]; simpl; [reflexivity|].
  unfold channelDelta. lia.
Qed.

Lemma checkForMotion_below isLocal cur last latch :
  Js.gt (getFrameDifference (data cur) (data last)) motionThreshold = false ->
  checkForMotion isLocal (Sampled cur) (mkDetector (Some last) latch)
  = (mkDetector (Some cur) latch, []).
Proof.
  unfold motionThreshold. intros Hgt. simpl. rewrite Hgt. reflexivity.
Qed.

Lemma checkForMotion_latched isLocal src st :
  motionDetected st = true ->
  motionDetected (fst (checkForMotion isLocal src st)) = true
  /\ snd (checkForMotion isLocal src st) = match src with
                                           | NotVideo => snd (checkForMotion isLocal src st)
                                           | _ => []
                                           end
  /\ detections (snd (checkForMotion isLocal src st)) = 0%nat.
Proof.
  intros Hlatch. destruct st as [last latch]. simpl in Hlatch. subst latch.
  destruct src as [| |cur]; simpl; auto.
  destruct last as [last|]; simpl; auto.
  rewrite andb_false_r. auto.
Qed.

Lemma checkForMotion_lastImageData isLocal src st :
  lastImageData (fst (checkForMotion isLocal src st))
  = sampleOf src (lastImageData st).
Proof.
  destruct src as [| |cur]; simpl; auto.
  destruct (lastImageData st); [destruct (_ && _)|]; reflexivity.
Qed.

Lemma checkForMotion_idle isLocal src st :
  motionDetected st = false ->
  detections (snd (checkForMotion isLocal src st))
    = (if aboveThreshold src (lastImageData st) then 1 else 0)%nat
  /\ motionDetected (fst (checkForMotion isLocal src st))
     = aboveThreshold src (lastImageData st).
Proof.
  intros Hidle. destruct st as [last latch]. simpl in Hidle. subst latch.
  destruct src as [| |cur]; simpl; auto.
  destruct last as [last|]; simpl; auto.
  unfold motionThreshold. rewrite andb_true_r.
  destruct (Js.gt _ _); [destruct isLocal|]; auto.
Qed.

Lemma ticks_cons isLocal src rest st :
  ticks isLocal (src :: rest) st
  = snd (checkForMotion isLocal src st)
    :: ticks isLocal rest (fst (checkForMotion isLocal src st)).
Proof. simpl. destruct (checkForMotion isLocal src st). reflexivity. Qed.

(** Once the latch is set no tick reports and the latch stays set. *)
Lemma ticks_latched isLocal srcs :
  forall st, motionDetected st = true ->
    detections <$> ticks isLocal srcs st = replicate (length srcs) 0%nat
    /\ motionDetected (detectorAfter isLocal srcs st) = true.
Proof.
  induction srcs as [|src rest IH]; intros st Hlatch; [auto|].
  destruct (checkForMotion_latched isLocal src st Hlatch) as (Hnext & _ & Hnone).
  destruct (IH _ Hnext) as [IHt IHl].
  rewrite ticks_cons, fmap_cons, Hnone, IHt. auto.
Qed.

Lemma ticks_idle isLocal srcs :
  forall st, motionDetected st = false ->
    detections <$> ticks isLocal srcs st
      = firstOnly (aboveThresholdTicks srcs (lastImageData st))
    /\ motionDetected (detectorAfter isLocal srcs st)
       = existsb id (aboveThresholdTicks srcs (lastImageData st)).
Proof.
  induction srcs as [|src rest IH]; intros st Hidle; [auto|].
  destruct (checkForMotion_idle isLocal src st Hidle) as [Hev Hlatch].
  pose proof (checkForMotion_lastImageData isLocal src st) as Hlast.
  rewrite ticks_cons, fmap_cons, Hev. simpl aboveThresholdTicks.
  simpl detectorAfter. simpl existsb. simpl firstOnly.
  destruct (aboveThreshold src (lastImageData st)).
  - destruct (ticks_latched isLocal rest _ Hlatch) as [Ht Hl].
    rewrite Ht, Hl. split; [|reflexivity].
    do 2 f_equal. clear. generalize (sampleOf src (lastImageData st)).
    induction rest; intros; simpl; auto.
  - destruct (IH _ Hlatch) as [IHt IHl]. rewrite IHt, IHl, Hlast. auto.
Qed.

Lemma sum_list_replicate_0 n : sum_list (replicate n 0%nat) = 0%nat.
Proof. induction n; simpl; auto. Qed.

Lemma sum_list_firstOnly above : (sum_list (firstOnly above) <= 1)%nat.
Proof.
  induction above as [|[|] rest IH]; simpl; [lia| |exact IH].
  rewrite sum_list_replicate_0. lia.
Qed.

(** C1: over any sequence of ticks of a fresh detector, the callback runs
    once on the first sample whose difference against the previous sample
    is strictly above the threshold and on no other tick, so at most once
    in all; the latch [motionDetected] is set from that tick on and is
    never cleared. *)
Theorem detection_fires_once (isLocal : bool) (srcs : list Source) :
  detections <$> ticks isLocal srcs detectMotion
    = firstOnly (aboveThresholdTicks srcs None)
  /\ (sum_list (detections <$> ticks isLocal srcs detectMotion) <= 1)%nat
  /\ motionDetected (detectorAfter isLocal srcs detectMotion)
     = existsb id (aboveThresholdTicks srcs None)
  /\ forall more : list Source,
       motionDetected (detectorAfter isLocal (srcs ++ more) detectMotion)
       = motionDetected (detectorAfter isLocal srcs detectMotion)
         || existsb id (aboveThresholdTicks (srcs ++ more) None).
Proof.
  destruct (ticks_idle isLocal srcs detectMotion eq_refl) as [Hticks Hlatch].
  simpl in Hticks, Hlatch. repeat split.
  - exact Hticks.
  - rewrite Hticks. apply sum_list_firstOnly.
  - exact Hlatch.
  - intros more.
    destruct (ticks_idle isLocal (srcs ++ more) detectMotion eq_refl) as [_ Hmore].
    simpl in Hmore. rewrite Hmore, Hlatch.
    assert (forall prev, existsb id (aboveThresholdTicks srcs prev) = true ->
                         existsb id (aboveThresholdTicks (srcs ++ more) prev) = true)
      as Hmono.
    { clear. induction srcs as [|src rest IH]; intros prev; simpl; [discriminate|].
      destruct (aboveThreshold src prev); simpl; auto. }
    specialize (Hmono None).
    destruct (existsb id (aboveThresholdTicks srcs None)); simpl; auto.
Qed.

(** C5: a frame compared with itself differs by 0, and a tick whose
    sample is identical to the stored one has no effect but to store the
    sample: no detection event, whatever the latch. *)
Theorem identical_frames_no_event (frame : list Pixel) :
  getFrameDifference (raster frame) (raster frame) = Js.Int 0
  /\ forall (isLocal latch : bool),
       let sample := mkImageData (raster frame) in
       checkForMotion isLocal (Sampled sample) (mkDetector (Some sample) latch)
         = (mkDetector (Some sample) latch, [])
       /\ detections
            (snd (checkForMotion isLocal (Sampled sample)
                    (mkDetector (Some sample) latch))) = 0%nat.
Proof.
  assert (getFrameDifference (raster frame) (raster frame) = Js.Int 0) as Hzero.
  { rewrite getFrameDifference_raster by reflexivity.
    rewrite DifferenceSample_diag. reflexivity. }
  split; [exact Hzero|].
  intros isLocal latch sample.
  assert (checkForMotion isLocal (Sampled sample) (mkDetector (Some sample) latch)
          = (mkDetector (Some sample) latch, [])) as Hstep.
  { apply checkForMotion_below. subst sample. cbn [data].
    rewrite Hzero. reflexivity. }
  rewrite Hstep. split; reflexivity.
Qed.

Lemma ticks_unsampled isLocal before :
  forall st, Forall (fun src => is_Sampled src = false) before ->
    detections <$> ticks isLocal before st = replicate (length before) 0%nat
    /\ detectorAfter isLocal before st = st.
Proof.
  induction before as [|src rest IH]; intros st Hall; [auto|].
  inversion Hall as [|? ? Hsrc Hrest]; subst.
  rewrite ticks_cons, fmap_cons. simpl detectorAfter.
  destruct src; try discriminate; simpl checkForMotion; simpl fst; simpl snd;
    destruct (IH st Hrest) as [-> ->]; auto.
Qed.

Lemma ticks_app isLocal srcs more :
  forall st, ticks isLocal (srcs ++ more) st
             = ticks isLocal srcs st
               ++ ticks isLocal more (detectorAfter isLocal srcs st).
Proof.
  induction srcs as [|src rest IH]; intros st; [reflexivity|].
  rewrite <- app_comm_cons, !ticks_cons, IH. reflexivity.
Qed.

Lemma detectorAfter_app isLocal srcs more :
  forall st, detectorAfter isLocal (srcs ++ more) st
             = detectorAfter isLocal more (detectorAfter isLocal srcs st).
Proof.
  induction srcs as [|src rest IH]; intros st; [reflexivity|].
  simpl. apply IH.
Qed.

(** C9: a tick that finds no previous sample stores the current one and
    reports nothing, whatever the frame holds; so the first sample a
    detector ever takes, after any number of ticks without a usable
    source, cannot fire an event. *)
Theorem first_sample_stored_without_event
    (isLocal : bool) (imageData : ImageData) (before : list Source) :
  Forall (fun src => is_Sampled src = false) before ->
  (forall latch : bool,
     checkForMotion isLocal (Sampled imageData) (mkDetector None latch)
     = (mkDetector (Some imageData) latch, []))
  /\ detections <$> ticks isLocal (before ++ [Sampled imageData]) detectMotion
     = replicate (S (length before)) 0%nat
  /\ detectorAfter isLocal (before ++ [Sampled imageData]) detectMotion
     = mkDetector (Some imageData) false.
Proof.
  intros Hbefore. split; [reflexivity|].
  destruct (ticks_unsampled isLocal before detectMotion Hbefore) as [Hticks Hstate].
  split.
  - rewrite ticks_app, fmap_app, Hticks, Hstate.
    rewrite replicate_S_end. reflexivity.
  - rewrite detectorAfter_app, Hstate. reflexivity.
Qed.

Lemma first_sample_stored_without_event_witness :
  let before := [Detached; NotVideo; Detached] in
  let imageData := mkImageData [255; 255; 255; 255] in
  Forall (fun src => is_Sampled src = false) before
  /\ detections <$> ticks true (before ++ [Sampled imageData]) detectMotion
     = [0; 0; 0; 0]%nat.
Proof.
  intros before imageData.
  assert (Forall (fun src => is_Sampled src = false) before) as Hbefore
    by (repeat constructor).
  split; [exact Hbefore|].
  exact (proj1 (proj2
    (first_sample_stored_without_event true imageData before Hbefore))).
Defined.

Lemma DifferenceSample_replicate n p q :
  DifferenceSample (replicate n p) (replicate n q) = Z.of_nat n * channelDelta p q.
Proof.
  induction n as [|n IH]; [reflexivity|].
  cbn [replicate DifferenceSample]. rewrite IH. lia.
Qed.

Lemma getFrameDifference_red_black a :
  getFrameDifference (raster (redFrame a)) (raster blackFrame) = Js.Int 79437600.
Proof.
  unfold redFrame, blackFrame.
  rewrite getFrameDifference_raster by (rewrite !length_replicate; reflexivity).
  rewrite DifferenceSample_replicate.
  change (channelDelta (mkPixel 255 0 0 a) (mkPixel 0 0 0 0)) with 255.
  unfold width, height. rewrite Nat2Z.inj_mul. reflexivity.
Qed.

(** C4, as stated, fails: the difference of the two reference frames is
    not 79,423,200. *)
Lemma saturated_red_is_not_79423200 :
  getFrameDifference (raster (redFrame 255)) (raster blackFrame)
  <> Js.Int 79423200.
Proof. rewrite getFrameDifference_red_black. discriminate. Qed.

(** C4, amended: with a stored 649 x 480 sample that is zero everywhere
    and a current sample whose red channel is 255 at every pixel (green
    and blue unchanged), the difference is 649 * 480 * 255 = 79,437,600,
    which is above the threshold 7,718,920, and the two ticks report
    exactly one detection event, on the second. *)
Theorem saturated_red_fires_once (a : Z) (isLocal : bool) :
  getFrameDifference (raster (redFrame a)) (raster blackFrame)
    = Js.Int (Z.of_nat width * Z.of_nat height * 255)
  /\ Z.of_nat width * Z.of_nat height * 255 = 79437600
  /\ Js.gt (getFrameDifference (raster (redFrame a)) (raster blackFrame))
           motionThreshold = true
  /\ motionThreshold = 7718920
  /\ detections <$>
       ticks isLocal [Sampled (mkImageData (raster blackFrame));
                      Sampled (mkImageData (raster (redFrame a)))] detectMotion
     = [0; 1]%nat.
Proof.
  pose proof (getFrameDifference_red_black a) as Hdiff.
  split; [exact Hdiff|]. split; [vm_compute; reflexivity|].
  split; [rewrite Hdiff; reflexivity|]. split; [reflexivity|].
  destruct (ticks_idle isLocal
              [Sampled (mkImageData (raster blackFrame));
               Sampled (mkImageData (raster (redFrame a)))]
              detectMotion eq_refl) as [Hticks _].
  rewrite Hticks.
  cbn [aboveThresholdTicks aboveThreshold sampleOf lastImageData detectMotion data].
  rewrite Hdiff. reflexivity.
Qed.

(** The older page's detector has no latch: it reports on every tick that
    is above the threshold. *)
Lemma PagesIndex_reports_every_time (isLocal : bool) (srcs : list Source) :
  forall prev : option ImageData,
    detections <$> PagesIndex.ticks isLocal srcs prev
    = (fun above : bool => if above then 1%nat else 0%nat)
        <$> aboveThresholdTicks srcs prev.
Proof.
  induction srcs as [|src rest IH]; intros prev; [reflexivity|].
  cbn [PagesIndex.ticks aboveThresholdTicks].
  destruct (PagesIndex.checkForMotion isLocal src prev) as [last' effects] eqn:Hstep.
  rewrite !fmap_cons, IH.
  assert (last' = sampleOf src prev
          /\ detections effects = if aboveThreshold src prev then 1%nat else 0%nat)
    as [-> ->]; [|reflexivity].
  destruct src as [| |cur]; cbn in Hstep; injection Hstep as <- <-;
    (split; [reflexivity|]); try reflexivity.
  destruct prev as [last|]; [|reflexivity].
  cbn [aboveThreshold]. unfold motionThreshold.
  destruct (Js.gt _ _); [destruct isLocal|]; reflexivity.
Qed.

Example PagesIndex_reports_repeatedly :
  detections <$>
    PagesIndex.ticks true
      [Sampled (mkImageData (raster blackFrame));
       Sampled (mkImageData (raster (redFrame 255)));
       Sampled (mkImageData (raster blackFrame));
       Sampled (mkImageData (raster (redFrame 255)))] None
  = [0; 1; 1; 1]%nat.
Proof.
  rewrite PagesIndex_reports_every_time.
  cbn [aboveThresholdTicks aboveThreshold sampleOf data fmap list_fmap].
  rewrite getFrameDifference_red_black.
  rewrite getFrameDifference_raster
    by (unfold blackFrame, redFrame; rewrite !length_replicate; reflexivity).
  unfold blackFrame, redFrame. rewrite DifferenceSample_replicate.
  reflexivity.
Qed.

(** ** Recording *)

Lemma alter_new {A} (f : A -> A) (l : list A) (x : A) :
  alter f (length l) (l ++ [x]) = l ++ [f x].
Proof.
  rewrite <- (Nat.add_0_r (length l)), alter_app_r. reflexivity.
Qed.

(** [startRecording] with an element at hand, field by field. *)
Lemma startRecording_fields (w : World) :
  startRecording true w =
  mkWorld (now w) (Some (length (recorders w))) (recordedChunks w)
          (recorders w ++ [startedRecorder])
          (timers w ++ [mkTimer (now w + 5000) stopMediaRecorder])
          (videos w) (gifUrls w)
          (console w ++ [Log "Starting recording..."]).
Proof.
  destruct w as [t mr chunks rs ts vs urls out].
  cbv [startRecording negb newMediaRecorder onMediaRecorder setTimeout
       console_log set_timers set_recorders set_mediaRecorder set_console
       now mediaRecorder recordedChunks recorders timers videos gifUrls console].
  rewrite !alter_new. reflexivity.
Qed.

Lemma recordingCount_app rs more :
  length (filter (fun rec => state rec = recording) (rs ++ more))
  = (length (filter (fun rec => state rec = recording) rs)
     + length (filter (fun rec => state rec = recording) more))%nat.
Proof. rewrite filter_app, length_app. reflexivity. Qed.

Lemma dataavailable_fields (eventData : Blob) (w : World) :
  dataavailable eventData w =
  mkWorld (now w) (mediaRecorder w)
          (recordedChunks w ++ filter (fun c => (0 < size c)%nat) [eventData])
          (recorders w) (timers w) (videos w) (gifUrls w)
          (console w ++ (if decide (0 < size eventData)%nat
                         then [Log "Data available:"] else [])).
Proof.
  destruct w as [t mr chunks rs ts vs urls out]. unfold dataavailable.
  case_decide as Hsize.
  - rewrite filter_cons_True by exact Hsize. reflexivity.
  - rewrite filter_cons_False by exact Hsize.
    cbn. rewrite !app_nil_r. reflexivity.
Qed.

(** A run of [dataavailable] events at a recorder whose handler is the
    one [startRecording] assigns appends the non-empty chunks in arrival
    order and logs each of them. *)
Lemma run_dataavailable (r : nat) (chunks : list Blob) :
  forall w : World,
    recorders w !! r ≫= ondataavailable = Some pushChunk ->
    run (DataAvailable r <$> chunks) w =
    mkWorld (now w) (mediaRecorder w) (recordedChunks w ++ nonEmpty chunks)
            (recorders w) (timers w) (videos w) (gifUrls w)
            (console w ++ ((fun _ => Log "Data available:") <$> nonEmpty chunks)).
Proof.
  unfold nonEmpty.
  induction chunks as [|chunk rest IH]; intros w Hr.
  - cbn. rewrite !app_nil_r. destruct w; reflexivity.
  - cbn [fmap list_fmap run foldl handle]. rewrite Hr.
    change (foldl (fun w e => handle e w) ?x ?l) with (run l x).
    rewrite dataavailable_fields, IH by exact Hr.
    cbn [now mediaRecorder recordedChunks recorders timers videos gifUrls console].
    rewrite !(filter_cons _ chunk), !filter_nil.
    destruct (decide _); cbn [fmap list_fmap];
      rewrite <- !app_assoc; reflexivity.
Qed.

Lemma elapse_single (ms : N) (w : World) (t : Timer) :
  timers w = [t] ->
  elapse ms w =
  if decide (due t <= now w + ms)%N
  then fire t (set_timers [] (set_now (now w + ms) w))
  else set_timers [t] (set_now (now w + ms) w).
Proof.
  intros Ht. unfold elapse. rewrite Ht, !filter_cons, !filter_nil.
  repeat case_decide; try reflexivity; tauto.
Qed.

Lemma elapse_no_timers (ms : N) (w : World) :
  timers w = [] -> elapse ms w = set_now (now w + ms) w.
Proof.
  intros Ht. unfold elapse. rewrite Ht. cbn.
  destruct w; cbn in *; subst; reflexivity.
Qed.

Lemma lookup_new {A} (l : list A) (x : A) : (l ++ [x]) !! length l = Some x.
Proof. apply list_lookup_middle. reflexivity. Qed.

Lemma whileRecording_fields (during : list Blob) (w : World) :
  whileRecording during w =
  mkWorld (now w) (Some (length (recorders w)))
          (recordedChunks w ++ nonEmpty during)
          (recorders w ++ [startedRecorder])
          (timers w ++ [mkTimer (now w + 5000) stopMediaRecorder])
          (videos w) (gifUrls w)
          ((console w ++ [Log "Starting recording..."])
             ++ ((fun _ => Log "Data available:") <$> nonEmpty during)).
Proof.
  unfold whileRecording. rewrite startRecording_fields.
  rewrite run_dataavailable; [reflexivity|].
  cbn [recorders]. rewrite lookup_new. reflexivity.
Qed.

(** Time passing during a recording started with no other timer pending:
    at 5000 ms the timer fires, stops the recorder and is gone. *)
Lemma elapse_whileRecording (ms : N) (during : list Blob) (w : World) :
  timers w = [] ->
  elapse ms (whileRecording during w) =
  if decide (5000 <= ms)%N then
    mkWorld (now w + ms) (Some (length (recorders w)))
            (recordedChunks w ++ nonEmpty during)
            (recorders w ++ [stop startedRecorder]) []
            (videos w) (gifUrls w)
            (((console w ++ [Log "Starting recording..."])
                ++ ((fun _ => Log "Data available:") <$> nonEmpty during))
               ++ [Log "Stopping recording..."])
  else
    mkWorld (now w + ms) (Some (length (recorders w)))
            (recordedChunks w ++ nonEmpty during)
            (recorders w ++ [startedRecorder])
            [mkTimer (now w + 5000) stopMediaRecorder]
            (videos w) (gifUrls w)
            ((console w ++ [Log "Starting recording..."])
               ++ ((fun _ => Log "Data available:") <$> nonEmpty during)).
Proof.
  intros Hno. rewrite whileRecording_fields, Hno.
  rewrite (elapse_single ms _ (mkTimer (now w + 5000) stopMediaRecorder))
    by reflexivity.
  cbn [due now app].
  destruct (decide (5000 <= ms)%N) as [Hms|Hms].
  - rewrite decide_True by lia.
    cbv [fire callback stopRecordingTimeout onMediaRecorder console_log
         set_console set_recorders set_timers set_now
         now mediaRecorder recordedChunks recorders timers videos gifUrls console].
    rewrite alter_new. reflexivity.
  - rewrite decide_False by lia. reflexivity.
Qed.

Lemma run_app (events more : list Event) (w : World) :
  run (events ++ more) w = run more (run events w).
Proof. apply foldl_app. Qed.

Lemma recordingSession_steps (during : list Blob) (final : Blob) (w : World) :
  recordingSession during final w =
  handle (Stop (length (recorders w)))
    (handle (DataAvailable (length (recorders w)) final)
       (elapse 5000 (whileRecording during w))).
Proof.
  unfold recordingSession, sessionEvents, whileRecording.
  rewrite !run_app. reflexivity.
Qed.

(** One whole recording, started with no other timer pending. *)
Lemma recordingSession_fields (during : list Blob) (final : Blob) (w : World) :
  timers w = [] ->
  exists out : list ConsoleEntry,
    recordingSession during final w =
    mkWorld (now w + 5000) (Some (length (recorders w)))
            (recordedChunks w ++ nonEmpty (during ++ [final]))
            (recorders w ++ [stop startedRecorder]) []
            (videos w ++
               [mkVideo (newBlob (recordedChunks w ++ nonEmpty (during ++ [final])))
                        true true []])
            (gifUrls w) out.
Proof.
  intros Hno. rewrite recordingSession_steps. cbn [handle].
  rewrite (elapse_whileRecording 5000 during w Hno).
  rewrite decide_True by lia.
  cbn [handle recorders]. rewrite lookup_new.
  cbn [mbind option_bind stop startedRecorder ondataavailable onstop].
  rewrite dataavailable_fields.
  cbn [now mediaRecorder recordedChunks recorders timers videos gifUrls console].
  rewrite lookup_new.
  cbn [mbind option_bind stop startedRecorder ondataavailable onstop].
  cbv [generateGif fst console_log set_console set_videos
       now mediaRecorder recordedChunks recorders timers videos gifUrls console].
  unfold nonEmpty. rewrite filter_app, app_assoc.
  eexists. reflexivity.
Qed.

Lemma newBlob_nonEmpty (chunks : list Blob) : newBlob (nonEmpty chunks) = newBlob chunks.
Proof.
  unfold newBlob, nonEmpty.
  induction chunks as [|c rest IH]; [reflexivity|].
  rewrite filter_cons. destruct (decide _) as [Hc|Hc]; cbn [concat].
  - rewrite IH. reflexivity.
  - destruct c; [exact IH | cbn in Hc; lia].
Qed.

Lemma newBlob_app (chunks more : list Blob) :
  newBlob (chunks ++ more) = newBlob chunks ++ newBlob more.
Proof. apply concat_app. Qed.

Lemma nonEmpty_app (chunks more : list Blob) :
  nonEmpty (chunks ++ more) = nonEmpty chunks ++ nonEmpty more.
Proof. apply filter_app. Qed.

Lemma recordingSessions_fields (sessions : list (list Blob * Blob)) :
  forall w : World,
    timers w = [] ->
    timers (recordingSessions sessions w) = []
    /\ recordedChunks (recordingSessions sessions w)
       = recordedChunks w ++ nonEmpty (concat (sessionChunks <$> sessions))
    /\ src <$> videos (recordingSessions sessions w)
       = (src <$> videos w) ++ clipSources (recordedChunks w) sessions.
Proof.
  induction sessions as [|[during final] rest IH]; intros w Hno.
  - cbn. rewrite !app_nil_r. auto.
  - cbn [recordingSessions foldl fst snd].
    change (foldl _ ?x rest) with (recordingSessions rest x).
    destruct (recordingSession_fields during final w Hno) as [out Hsession].
    rewrite Hsession.
    match goal with |- context [recordingSessions rest ?x] =>
      destruct (IH x eq_refl) as (Ht & Hc & Hv) end.
    rewrite Ht, Hc, Hv.
    cbn [recordedChunks videos fmap list_fmap concat clipSources sessionChunks
         fst snd].
    unfold sessionChunks. cbn [fst snd src app].
    rewrite fmap_app, !nonEmpty_app, <- !app_assoc.
    cbn [fmap list_fmap src app]. auto.
Qed.

Lemma clipSources_lookup (sessions : list (list Blob * Blob)) :
  forall (chunks : list Blob) (n : nat),
    (n < length sessions)%nat ->
    clipSources chunks sessions !! n
    = Some (newBlob (chunks ++ nonEmpty (concat (sessionChunks <$> take (S n) sessions)))).
Proof.
  induction sessions as [|s rest IH]; intros chunks n Hn; [cbn in Hn; lia|].
  destruct n as [|n].
  - cbn. rewrite !app_nil_r. reflexivity.
  - cbn [clipSources lookup list_lookup]. cbn in Hn.
    change (list_lookup n ?l) with (l !! n).
    rewrite IH by lia.
    cbn [take fmap list_fmap concat]. rewrite nonEmpty_app, <- app_assoc.
    reflexivity.
Qed.

(** C10: [recordedChunks] is appended to by every session and never
    cleared.  After any number of sessions run one after the other from
    the freshly loaded module, the buffer holds the chunks of all of them,
    and the video blob that [generateGif] builds after the n-th session is
    the concatenation of all chunks produced by sessions 1 to n, not only
    those of session n. *)
Theorem clip_accumulates_all_sessions
    (sessions : list (list Blob * Blob)) (n : nat) (s : list Blob * Blob) :
  sessions !! n = Some s ->
  src <$> (videos (recordingSessions sessions initial) !! n)
    = Some (newBlob (concat (sessionChunks <$> take (S n) sessions)))
  /\ recordedChunks (recordingSessions (take (S n) sessions) initial)
     = nonEmpty (concat (sessionChunks <$> take (S n) sessions))
  /\ recordedChunks (recordingSessions (take n sessions) initial)
       `prefix_of` recordedChunks (recordingSessions (take (S n) sessions) initial).
Proof.
  intros Hs.
  assert (n < length sessions)%nat as Hn by (eapply lookup_lt_Some; eauto).
  destruct (recordingSessions_fields sessions initial eq_refl) as (_ & _ & Hv).
  destruct (recordingSessions_fields (take (S n) sessions) initial eq_refl)
    as (_ & Hc & _).
  destruct (recordingSessions_fields (take n sessions) initial eq_refl)
    as (_ & Hc' & _).
  cbn [videos recordedChunks initial fmap list_fmap app] in Hv, Hc, Hc'.
  split; [|split].
  - rewrite <- list_lookup_fmap, Hv, clipSources_lookup by exact Hn.
    cbn [app]. rewrite newBlob_nonEmpty. reflexivity.
  - exact Hc.
  - rewrite Hc, Hc'. erewrite take_S_r by exact Hs.
    rewrite fmap_app, concat_app, nonEmpty_app. apply prefix_app_r. reflexivity.
Qed.

Lemma clip_accumulates_all_sessions_witness :
  let first := ([[Byte.x01; Byte.x02]], [Byte.x03]) in
  let second := ([], [Byte.x04]) in
  [first; second] !! 1%nat = Some second
  /\ src <$> (videos (recordingSessions [first; second] initial) !! 1%nat)
     = Some [Byte.x01; Byte.x02; Byte.x03; Byte.x04].
Proof.
  intros first second. split; [reflexivity|].
  exact (proj1 (clip_accumulates_all_sessions [first; second] 1 second eq_refl)).
Defined.

Lemma recordingCount_startRecording (w : World) :
  recordingCount (startRecording true w) = S (recordingCount w).
Proof.
  unfold recordingCount. rewrite startRecording_fields. cbn [recorders].
  rewrite recordingCount_app, filter_cons, filter_nil.
  rewrite decide_True by reflexivity. cbn [length]. lia.
Qed.

(** C3, as stated, fails: a second [startRecording] while the first
    recording is active changes the state and leaves two recorders
    recording; the chunks of the two then alternate in the one buffer. *)
Lemma second_start_is_not_rejected :
  let once := startRecording true initial in
  let twice := startRecording true once in
  recordingCount once = 1%nat
  /\ recordingCount twice = 2%nat
  /\ twice <> once
  /\ mediaRecorder once = Some 0%nat
  /\ mediaRecorder twice = Some 1%nat
  /\ recordedChunks
       (run [DataAvailable 0 [Byte.x01]; DataAvailable 1 [Byte.x02];
             DataAvailable 0 [Byte.x03]] twice)
     = [[Byte.x01]; [Byte.x02]; [Byte.x03]].
Proof.
  cbv zeta. repeat split; try reflexivity.
  intros Heq. apply (f_equal recordingCount) in Heq. discriminate Heq.
Qed.

(** C3, amended: [startRecording] has no check for a recording in
    progress.  Called while a recorder is recording, it creates and starts
    a further recorder and makes [mediaRecorder] name it; the earlier
    recorder goes on recording, so one more recorder is recording than
    before.  The chunks already stored are kept in their order, and a
    chunk from either recorder is appended at the end of the one shared
    buffer. *)
Theorem second_start_adds_a_recorder (w : World) (first : nat) :
  recorders w !! first = Some startedRecorder ->
  let w' := startRecording true w in
  let second := length (recorders w) in
  first <> second
  /\ recorders w' !! first = Some startedRecorder
  /\ recorders w' !! second = Some startedRecorder
  /\ length (recorders w') = S (length (recorders w))
  /\ mediaRecorder w' = Some second
  /\ recordingCount w' = S (recordingCount w)
  /\ (2 <= recordingCount w')%nat
  /\ recordedChunks w' = recordedChunks w
  /\ forall (r : nat) (eventData : Blob),
       r = first \/ r = second ->
       recordedChunks (handle (DataAvailable r eventData) w')
       = recordedChunks w ++ nonEmpty [eventData].
Proof.
  intros Hfirst w' second.
  assert (first < length (recorders w))%nat as Hlt
    by (eapply lookup_lt_Some; eauto).
  assert (recorders w' = recorders w ++ [startedRecorder]) as Hrs
    by (subst w'; rewrite startRecording_fields; reflexivity).
  assert (recorders w' !! first = Some startedRecorder) as Hfirst'
    by (rewrite Hrs, lookup_app_l by exact Hlt; exact Hfirst).
  assert (recorders w' !! second = Some startedRecorder) as Hsecond
    by (rewrite Hrs; apply lookup_new).
  assert (0 < recordingCount w)%nat as Hone.
  { unfold recordingCount.
    destruct (lookup_lt_is_Some_2 (recorders w) first Hlt) as [rec Hrec].
    assert (startedRecorder ∈ filter (fun rec => state rec = recording) (recorders w))
      as Hin.
    { apply list_elem_of_filter. split; [reflexivity|].
      eapply list_elem_of_lookup_2; eauto. }
    destruct (filter _ (recorders w)); [inversion Hin | cbn; lia]. }
  repeat apply conj.
  - subst second. lia.
  - exact Hfirst'.
  - exact Hsecond.
  - rewrite Hrs, length_app. cbn. lia.
  - subst w'. rewrite startRecording_fields. reflexivity.
  - apply recordingCount_startRecording.
  - subst w'. rewrite recordingCount_startRecording. lia.
  - subst w'. rewrite startRecording_fields. reflexivity.
  - intros r eventData [-> | ->]; cbn [handle].
    + rewrite Hfirst'. cbn [mbind option_bind startedRecorder ondataavailable].
      rewrite dataavailable_fields. subst w'.
      rewrite startRecording_fields. reflexivity.
    + rewrite Hsecond. cbn [mbind option_bind startedRecorder ondataavailable].
      rewrite dataavailable_fields. subst w'.
      rewrite startRecording_fields. reflexivity.
Qed.

Lemma second_start_adds_a_recorder_witness :
  let w := startRecording true initial in
  recorders w !! 0%nat = Some startedRecorder
  /\ recordingCount (startRecording true w) = S (recordingCount w).
Proof.
  intros w. split; [reflexivity|].
  exact (proj1 (proj2 (proj2 (proj2 (proj2 (proj2
    (second_start_adds_a_recorder w 0 eq_refl))))))).
Defined.

(** C8, as stated, fails: a recorder that delivers no data leaves the
    sealed session empty, and [generateGif] is called all the same. *)
Lemma sealed_session_may_be_empty :
  recordedChunks (recordingSession [] [] initial) = []
  /\ src <$> videos (recordingSession [] [] initial) = [[]].
Proof. split; reflexivity. Qed.

(** C8, amended: a recording started while no other timeout is pending
    sets one one-shot timer for 5000 ms after the start.  The recorder
    records as long as less than 5000 ms have elapsed; at 5000 ms the
    timer runs, stops the recorder and is gone, and no later passage of
    time changes a recorder again.  The session then hands over its last
    chunk and [generateGif] runs exactly once, on the whole buffer.  The
    buffer holds the chunks of positive size in arrival order; it is
    non-empty exactly when it was so before or the recorder delivered at
    least one chunk of positive size. *)
Theorem recording_stops_after_5000ms
    (w : World) (during : list Blob) (final : Blob) :
  timers w = [] ->
  let r := length (recorders w) in
  let started := whileRecording during w in
  let sealed := recordingSession during final w in
  timers started = [mkTimer (now w + 5000) stopMediaRecorder]
  /\ (forall ms : N,
        state <$> recorders (elapse ms started) !! r
          = Some (if decide (5000 <= ms)%N then inactive else recording)
        /\ timers (elapse ms started)
           = (if decide (5000 <= ms)%N then []
              else [mkTimer (now w + 5000) stopMediaRecorder]))
  /\ (forall more : N,
        recorders (elapse more (elapse 5000 started))
        = recorders (elapse 5000 started))
  /\ state <$> recorders sealed !! r = Some inactive
  /\ timers sealed = []
  /\ now sealed = (now w + 5000)%N
  /\ recordedChunks sealed = recordedChunks w ++ nonEmpty (during ++ [final])
  /\ videos sealed
     = videos w ++ [mkVideo (newBlob (recordedChunks sealed)) true true []]
  /\ length (videos sealed) = S (length (videos w))
  /\ (recordedChunks sealed <> []
      <-> recordedChunks w <> []
          \/ Exists (fun chunk => (0 < size chunk)%nat) (during ++ [final])).
Proof.
  intros Hno r started sealed.
  destruct (recordingSession_fields during final w Hno) as [out Hsealed].
  fold sealed in Hsealed.
  split; [subst started; rewrite whileRecording_fields, Hno; reflexivity|].
  split.
  { intros ms. subst started. rewrite elapse_whileRecording by exact Hno.
    destruct (decide (5000 <= ms)%N); cbn [recorders timers];
      subst r; rewrite lookup_new; auto. }
  split.
  { intros more. subst started. rewrite elapse_whileRecording by exact Hno.
    rewrite decide_True by lia. rewrite elapse_no_timers by reflexivity.
    reflexivity. }
  rewrite Hsealed. cbn [recorders timers now recordedChunks videos].
  repeat apply conj; try reflexivity.
  - subst r. rewrite lookup_new. reflexivity.
  - rewrite length_app. cbn. lia.
  - intros Hne. destruct (recordedChunks w) as [|c cs]; [right | left; discriminate].
    cbn [app] in Hne. apply Exists_exists.
    destruct (nonEmpty (during ++ [final])) as [|c cs] eqn:Hchunks; [congruence|].
    exists c.
    assert (c ∈ nonEmpty (during ++ [final])) as Hin
      by (rewrite Hchunks; left).
    apply list_elem_of_filter in Hin as [Hsize Hin].
    split; [exact Hin | exact Hsize].
  - intros [Hold | Hnew] Hempty; apply app_eq_nil in Hempty as [Hw Hc];
      [contradiction|].
    apply Exists_exists in Hnew as (c & Hin & Hsize).
    assert (c ∈ nonEmpty (during ++ [final])) as Hc'.
    { apply list_elem_of_filter. split; [exact Hsize | exact Hin]. }
    rewrite Hc in Hc'. inversion Hc'.
Qed.

Lemma recording_stops_after_5000ms_witness :
  timers initial = []
  /\ recordedChunks (recordingSession [[Byte.x01]] [Byte.x02; Byte.x03] initial)
     = [[Byte.x01]; [Byte.x02; Byte.x03]].
Proof.
  split; [reflexivity|].
  exact (proj1 (proj2 (proj2 (proj2 (proj2 (proj2 (proj2
    (recording_stops_after_5000ms initial [[Byte.x01]] [Byte.x02; Byte.x03]
       eq_refl)))))))).
Defined.

(** With two overlapping recordings both timeouts go to the recorder that
    [mediaRecorder] names when they run, the newer one: the first timeout
    stops it, the second finds it inactive, and the older recorder is
    never stopped. *)
Example overlapping_timeouts_stop_the_newer_recorder :
  let w := run [CallStartRecording true; Elapse 1000; CallStartRecording true;
                Elapse 4000; Elapse 1000; Elapse 60000] initial in
  state <$> recorders w = [recording; inactive] /\ timers w = [].
Proof. split; vm_compute; reflexivity. Qed.

(** ** Encoding *)

Lemma feed_cons u updates gif :
  feed (u :: updates) gif
  = feed updates (fst (timeupdateListener (fst u) (snd u) gif)).
Proof. reflexivity. Qed.

Lemma timeupdateListener_renders t canvas gif :
  exists more, renders (fst (timeupdateListener t canvas gif)) = renders gif ++ more.
Proof.
  unfold timeupdateListener. destruct (Qle_bool _ _); cbn.
  - eexists. reflexivity.
  - exists []. rewrite app_nil_r. reflexivity.
Qed.

(** A first [render()] stays the first. *)
Lemma artifactFrames_feed_rendered updates :
  forall gif first, artifactFrames gif = Some first ->
                    artifactFrames (feed updates gif) = Some first.
Proof.
  induction updates as [|u rest IH]; intros gif first Hfirst; [exact Hfirst|].
  rewrite feed_cons. apply IH.
  destruct (timeupdateListener_renders (fst u) (snd u) gif) as [more Hmore].
  unfold artifactFrames in *. rewrite Hmore.
  destruct (renders gif); [discriminate | exact Hfirst].
Qed.

Lemma artifactFrames_feed updates :
  forall gif, renders gif = [] ->
    artifactFrames (feed updates gif)
    = (fun sampled => frames gif ++ (toFrame <$> sampled)) <$> sampledUntilEnd updates.
Proof.
  induction updates as [|[t canvas] rest IH]; intros gif Hnone.
  - unfold artifactFrames. cbn. rewrite Hnone. reflexivity.
  - rewrite feed_cons. cbn [fst snd sampledUntilEnd]. unfold timeupdateListener.
    destruct (Qle_bool (5 # 1) t); cbn [fst].
    + erewrite artifactFrames_feed_rendered
        by (unfold artifactFrames, render; cbn; rewrite Hnone; reflexivity).
      cbn. rewrite app_nil_r. reflexivity.
    + rewrite IH by exact Hnone. cbn [frames addFrame].
      destruct (sampledUntilEnd rest); cbn; [|reflexivity].
      rewrite <- app_assoc. reflexivity.
Qed.

Lemma frames_feed updates :
  forall gif, Forall (fun f => delay f = 100) (frames gif) ->
              Forall (fun f => delay f = 100) (frames (feed updates gif)).
Proof.
  induction updates as [|[t canvas] rest IH]; intros gif Hall; [exact Hall|].
  rewrite feed_cons. apply IH. cbn [fst snd]. unfold timeupdateListener.
  destruct (Qle_bool (5 # 1) t); cbn; [exact Hall|].
  apply Forall_app. split; [exact Hall | repeat constructor].
Qed.

Lemma lookup_alter_new {A} (f : A -> A) (l : list A) (x : A) (i : nat) :
  l !! i = Some x -> alter f i l = <[i := f x]> l.
Proof.
  revert i. induction l as [|y l IH]; intros [|i] Hi; simplify_eq/=; auto.
  f_equal. apply IH, Hi.
Qed.

Lemma fmap_feed_nil (gifs : list GIF) : feed [] <$> gifs = gifs.
Proof. induction gifs as [|g gifs IH]; [reflexivity|]. cbn. f_equal. exact IH. Qed.

(** A run of [timeupdate] events at a video feeds every listener's
    encoder and leaves everything but that video alone. *)
Lemma run_timeupdate (v : nat) (updates : list (Q * Canvas)) :
  forall (w : World) (video : HTMLVideoElement),
    videos w !! v = Some video ->
    exists nowPaused : bool,
      run ((fun u => TimeUpdate v (fst u) (snd u)) <$> updates) w
      = set_videos
          (<[v := mkVideo (src video) (muted video) nowPaused
                          (feed updates <$> timeupdateListeners video)]>
             (videos w)) w.
Proof.
  induction updates as [|u rest IH]; intros w video Hv.
  - exists (paused video). cbn [fmap list_fmap run foldl].
    rewrite fmap_feed_nil.
    rewrite list_insert_id by (destruct video; exact Hv).
    destruct w; reflexivity.
  - cbn [fmap list_fmap run foldl handle].
    change (foldl (fun w e => handle e w) ?x ?l) with (run l x).
    unfold timeupdate, onVideo.
    rewrite (lookup_alter_new _ _ video) by exact Hv.
    match goal with |- context [run _ (set_videos (<[v := ?video']> _) w)] =>
      destruct (IH (set_videos (<[v := video']> (videos w)) w) video')
        as [nowPaused Hrun] end.
    { cbn [videos set_videos]. apply list_lookup_insert_eq.
      eapply lookup_lt_Some; eauto. }
    exists nowPaused.
    change (list_fmap _ _ ?f ?l) with (f <$> l) in Hrun.
    rewrite Hrun. cbn [src muted timeupdateListeners videos set_videos].
    rewrite list_insert_insert_eq, <- !list_fmap_compose.
    destruct w; reflexivity.
Qed.

Lemma encodingEvents_video (v : nat) (updates : list (Q * Canvas))
    (w : World) (blob : Blob) :
  videos w !! v = Some (mkVideo blob true true []) ->
  exists nowPaused : bool,
    videos (run (encodingEvents v updates) w) !! v
    = Some (mkVideo blob true nowPaused [feed updates (mkGIF 2 10 [] [])]).
Proof.
  intros Hv.
  assert (v < length (videos w))%nat as Hlt by (eapply lookup_lt_Some; eauto).
  unfold encodingEvents. rewrite run_app.
  cbn [run foldl handle]. rewrite decide_True by exact Hlt.
  unfold loadeddata, playFulfilled, onVideo, console_log.
  cbn [videos set_videos set_console].
  rewrite (lookup_alter_new _ _ _ _ Hv).
  erewrite (lookup_alter_new _ (<[v := _]> (videos w)))
    by (apply list_lookup_insert_eq, Hlt).
  rewrite list_insert_insert_eq.
  unfold set_paused, set_timeupdateListeners.
  cbn [src muted paused timeupdateListeners app].
  match goal with |- context [run _ ?x] =>
    destruct (run_timeupdate v updates x
                (mkVideo blob true false [mkGIF 2 10 [] []])) as [nowPaused Hrun]
  end.
  { cbn [videos]. apply list_lookup_insert_eq, Hlt. }
  exists nowPaused. rewrite Hrun.
  cbn [videos set_videos]. rewrite list_insert_insert_eq.
  rewrite list_lookup_insert_eq by exact Hlt. reflexivity.
Qed.

(** C6, as stated, fails: with [timeupdate] notifications a quarter of a
    second apart the artifact of a 5-second session has 19 frames, not 50
    give or take one. *)
Lemma quarter_second_updates_give_19_frames :
  let canvas := mkCanvas 1 1 (mkImageData [0; 0; 0; 255]) in
  let sealed := recordingSession [] [Byte.x01] initial in
  (fun artifact : list GifFrame => length artifact)
    <$> artifactOf (run (encodingEvents 0 (periodicUpdates 4 20 canvas)) sealed) 0
    = Some 19%nat
  /\ ~ (50 - 1 <= 19 <= 50 + 1)%nat.
Proof. split; [reflexivity | lia]. Qed.

(** C6, amended: the artifact of a clip holds one frame for every
    [timeupdate] notification that comes before the first notification at
    or past 5 seconds of playback, in the order of the notifications, each
    with the fixed delay of 100 ms.  Its frame count is the number of
    those notifications; nothing ties it to 5000 / 100.  When no
    notification reaches 5 seconds, nothing is rendered. *)
Theorem artifact_frames_follow_timeupdates
    (w : World) (v : nat) (blob : Blob) (updates : list (Q * Canvas)) :
  videos w !! v = Some (mkVideo blob true true []) ->
  artifactOf (run (encodingEvents v updates) w) v
    = (fun sampled : list Canvas => toFrame <$> sampled) <$> sampledUntilEnd updates
  /\ (fun artifact : list GifFrame => length artifact)
       <$> artifactOf (run (encodingEvents v updates) w) v
     = (fun sampled : list Canvas => length sampled) <$> sampledUntilEnd updates
  /\ forall artifact : list GifFrame,
       artifactOf (run (encodingEvents v updates) w) v = Some artifact ->
       Forall (fun f => delay f = 100) artifact.
Proof.
  intros Hv.
  destruct (encodingEvents_video v updates w blob Hv) as [nowPaused Hvideo].
  assert (artifactOf (run (encodingEvents v updates) w) v
          = (fun sampled : list Canvas => toFrame <$> sampled) <$> sampledUntilEnd updates) as Hartifact.
  { unfold artifactOf. rewrite Hvideo.
    cbn [mbind option_bind timeupdateListeners head].
    rewrite artifactFrames_feed by reflexivity. reflexivity. }
  split; [exact Hartifact|]. rewrite Hartifact. split.
  - destruct (sampledUntilEnd updates); cbn; [|reflexivity].
    rewrite length_fmap. reflexivity.
  - intros artifact Hsome.
    destruct (sampledUntilEnd updates) as [sampled|]; [|discriminate].
    injection Hsome as <-. apply Forall_fmap, Forall_true. reflexivity.
Qed.

Lemma artifact_frames_follow_timeupdates_witness :
  let canvas := mkCanvas 1 1 (mkImageData [0; 0; 0; 255]) in
  let sealed := recordingSession [] [Byte.x01] initial in
  videos sealed !! 0%nat = Some (mkVideo [Byte.x01] true true [])
  /\ artifactOf (run (encodingEvents 0 (periodicUpdates 1 5 canvas)) sealed) 0
     = Some (replicate 4 (mkGifFrame canvas 100)).
Proof.
  intros canvas sealed. split; [reflexivity|].
  exact (proj1 (artifact_frames_follow_timeupdates sealed 0 [Byte.x01]
                  (periodicUpdates 1 5 canvas) eq_refl)).
Defined.

(** ** Failures *)

Lemma gifUrls_fire (ts : list Timer) :
  forall w, gifUrls (foldl (fun w timer => fire timer w) w ts) = gifUrls w.
Proof.
  induction ts as [|t ts IH]; intros w; [reflexivity|].
  cbn [foldl]. rewrite IH. destruct t as [d []].
  unfold fire, stopRecordingTimeout, onMediaRecorder, console_log.
  cbn [callback mediaRecorder set_console].
  destruct (mediaRecorder w); reflexivity.
Qed.

(** Only an encoder's [finished] notification puts anything on the page. *)
Lemma gifUrls_handle (e : Event) (w : World) :
  (forall blob, e <> Finished blob) -> gifUrls (handle e w) = gifUrls w.
Proof.
  intros Hnot. destruct e as [[|]|ms|r chunk|r|v|v|v|v t c|v|blob]; cbn [handle].
  - rewrite startRecording_fields. reflexivity.
  - reflexivity.
  - unfold elapse. rewrite gifUrls_fire. reflexivity.
  - destruct (recorders w !! r ≫= ondataavailable) as [[]|]; [|reflexivity].
    rewrite dataavailable_fields. reflexivity.
  - destruct (recorders w !! r ≫= onstop) as [[]|]; reflexivity.
  - case_decide; reflexivity.
  - reflexivity.
  - reflexivity.
  - reflexivity.
  - case_decide; reflexivity.
  - destruct (Hnot blob eq_refl).
Qed.

(** C7, as stated, fails: when the clip cannot be decoded the caller of
    [generateGif] holds a fulfilled promise and the [error] listener only
    writes to the console; a rejected [play()] leaves no trace at all. *)
Lemma decode_failure_is_not_surfaced :
  let result := generateGif (recordingSession [] [Byte.x01] initial) in
  ~ surfacesFailure result
  /\ handle (VideoError 0) (fst result)
     = console_error "Error loading video:" (fst result)
  /\ handle (PlayRejected 0) (fst result) = fst result.
Proof.
  cbv zeta. split; [|split; vm_compute; reflexivity].
  unfold surfacesFailure. discriminate.
Qed.

(** C7, amended: if the intermediate clip fails to decode, the encoder
    writes the error to the console and does nothing else: nothing goes to
    the Sink, and nothing is reported to the caller, whose promise was
    fulfilled when [generateGif] returned.  The Sink receives an artifact
    only from an encoder's [finished] notification.  A rejected [play()]
    is dropped without a report, and there is no zero-frame check: a first
    [timeupdate] at 5 seconds calls [render()] on an encoder without
    frames. *)
Theorem decode_error_is_only_logged (w : World) (v : nat) :
  (v < length (videos w))%nat ->
  handle (VideoError v) w = console_error "Error loading video:" w
  /\ console (handle (VideoError v) w) = console w ++ [Error "Error loading video:"]
  /\ gifUrls (handle (VideoError v) w) = gifUrls w
  /\ videos (handle (VideoError v) w) = videos w
  /\ snd (generateGif w) = Fulfilled
  /\ ~ surfacesFailure (generateGif w)
  /\ (forall (e : Event) (w0 : World),
        gifUrls (handle e w0) <> gifUrls w0 -> exists blob, e = Finished blob)
  /\ handle (PlayRejected v) w = w
  /\ forall canvas : Canvas,
       timeupdateListener (5 # 1) canvas (mkGIF 2 10 [] [])
       = (mkGIF 2 10 [] [[]], true).
Proof.
  intros Hv.
  assert (handle (VideoError v) w = console_error "Error loading video:" w)
    as Herror by (cbn [handle]; rewrite decide_True by exact Hv; reflexivity).
  rewrite Herror. repeat apply conj; try reflexivity.
  - unfold surfacesFailure. discriminate.
  - intros e w0 Hchanged. destruct e; try (exists blob; reflexivity);
      exfalso; apply Hchanged, gifUrls_handle; discriminate.
Qed.

Lemma decode_error_is_only_logged_witness :
  let w := recordingSession [] [Byte.x01] initial in
  (0 < length (videos w))%nat
  /\ gifUrls (handle (VideoError 0) w) = gifUrls w.
Proof.
  intros w.
  assert (0 < length (videos w))%nat as Hv by (vm_compute; lia).
  split; [exact Hv|].
  exact (proj1 (proj2 (proj2 (decode_error_is_only_logged w 0 Hv)))).
Defined.

(** * Further properties of the code *)

(** ** [getFrameDifference] as a distance between frames *)

Lemma channelDelta_sym p q : channelDelta p q = channelDelta q p.
Proof. unfold channelDelta. lia. Qed.

Lemma DifferenceSample_sym frame1 :
  forall frame2, DifferenceSample frame1 frame2 = DifferenceSample frame2 frame1.
Proof.
  induction frame1 as [|p frame1 IH]; intros [|q frame2]; simpl; auto.
  rewrite IH, channelDelta_sym. reflexivity.
Qed.

(** X1: the difference of two frames of the same dimensions does not
    depend on which of them is the current and which the stored one. *)
Theorem getFrameDifference_symmetric (frame1 frame2 : list Pixel) :
  length frame1 = length frame2 ->
  getFrameDifference (raster frame1) (raster frame2)
  = getFrameDifference (raster frame2) (raster frame1).
Proof.
  intros Hlen. rewrite !getFrameDifference_raster by auto.
  rewrite DifferenceSample_sym. reflexivity.
Qed.

Lemma getFrameDifference_symmetric_witness :
  let frame1 := [mkPixel 10 20 30 255; mkPixel 0 0 0 7] in
  let frame2 := [mkPixel 13 20 10 0; mkPixel 1 2 3 9] in
  length frame1 = length frame2
  /\ getFrameDifference (raster frame1) (raster frame2)
     = getFrameDifference (raster frame2) (raster frame1).
Proof.
  intros frame1 frame2. split; [reflexivity|].
  exact (getFrameDifference_symmetric frame1 frame2 eq_refl).
Defined.

Lemma DifferenceSample_triangle frame1 :
  forall frame2 frame3,
    length frame1 = length frame2 -> length frame2 = length frame3 ->
    DifferenceSample frame1 frame3
    <= DifferenceSample frame1 frame2 + DifferenceSample frame2 frame3.
Proof.
  induction frame1 as [|p frame1 IH]; intros [|q frame2] [|r frame3] H12 H23;
    simplify_eq/=; [lia|].
  specialize (IH frame2 frame3 H12 H23). unfold channelDelta. lia.
Qed.

(** X2: over frames of the same dimensions the difference obeys the
    triangle inequality: going from a first frame to a third changes no
    more than going by way of a second one. *)
Theorem getFrameDifference_triangle (frame1 frame2 frame3 : list Pixel) :
  length frame1 = length frame2 ->
  length frame2 = length frame3 ->
  exists d13 d12 d23 : Z,
    getFrameDifference (raster frame1) (raster frame3) = Js.Int d13
    /\ getFrameDifference (raster frame1) (raster frame2) = Js.Int d12
    /\ getFrameDifference (raster frame2) (raster frame3) = Js.Int d23
    /\ d13 <= d12 + d23.
Proof.
  intros H12 H23.
  exists (DifferenceSample frame1 frame3), (DifferenceSample frame1 frame2),
         (DifferenceSample frame2 frame3).
  rewrite !getFrameDifference_raster by congruence.
  repeat apply conj; try reflexivity.
  apply DifferenceSample_triangle; assumption.
Qed.

Lemma getFrameDifference_triangle_witness :
  let frame1 := [mkPixel 0 0 0 255] in
  let frame2 := [mkPixel 200 0 0 255] in
  let frame3 := [mkPixel 100 50 0 255] in
  length frame1 = length frame2 /\ length frame2 = length frame3
  /\ exists d13 d12 d23 : Z,
       getFrameDifference (raster frame1) (raster frame3) = Js.Int d13
       /\ getFrameDifference (raster frame1) (raster frame2) = Js.Int d12
       /\ getFrameDifference (raster frame2) (raster frame3) = Js.Int d23
       /\ d13 <= d12 + d23.
Proof.
  intros frame1 frame2 frame3. split; [reflexivity|]. split; [reflexivity|].
  exact (getFrameDifference_triangle frame1 frame2 frame3 eq_refl eq_refl).
Defined.

Lemma DifferenceSample_zero frame1 :
  forall frame2, length frame1 = length frame2 ->
    (DifferenceSample frame1 frame2 = 0 <-> rgb <$> frame1 = rgb <$> frame2).
Proof.
  induction frame1 as [|p frame1 IH]; intros [|q frame2] Hlen; simplify_eq/=;
    [tauto|].
  specialize (IH frame2 Hlen).
  pose proof (DifferenceSample_nonneg frame1 frame2) as Hrest.
  unfold channelDelta, rgb in *. split.
  - intros Hzero.
    assert (DifferenceSample frame1 frame2 = 0) as Hrest0 by lia.
    apply IH in Hrest0. rewrite Hrest0. f_equal.
    destruct p, q; cbn in *. repeat f_equal; lia.
  - intros [= Hr Hg Hb Hrest0]. apply IH in Hrest0. lia.
Qed.

(** X3: two frames of the same dimensions differ by 0 exactly when they
    agree on the red, green and blue channel of every pixel. *)
Theorem getFrameDifference_zero_iff_same_rgb (frame1 frame2 : list Pixel) :
  length frame1 = length frame2 ->
  (getFrameDifference (raster frame1) (raster frame2) = Js.Int 0
   <-> rgb <$> frame1 = rgb <$> frame2).
Proof.
  intros Hlen. rewrite getFrameDifference_raster by exact Hlen.
  rewrite <- (DifferenceSample_zero frame1 frame2 Hlen).
  split; [intros [= H]; exact H | intros ->; reflexivity].
Qed.

Lemma getFrameDifference_zero_iff_same_rgb_witness :
  let frame1 := [mkPixel 10 20 30 255] in
  let frame2 := [mkPixel 10 20 30 0] in
  length frame1 = length frame2
  /\ getFrameDifference (raster frame1) (raster frame2) = Js.Int 0.
Proof.
  intros frame1 frame2. split; [reflexivity|].
  apply (getFrameDifference_zero_iff_same_rgb frame1 frame2 eq_refl).
  reflexivity.
Defined.

Lemma DifferenceSample_bound frame1 :
  forall frame2,
    Forall clamped frame1 -> Forall clamped frame2 ->
    DifferenceSample frame1 frame2 <= 765 * Z.of_nat (length frame1).
Proof.
  induction frame1 as [|p frame1 IH]; intros [|q frame2] H1 H2;
    cbn [DifferenceSample length]; try lia.
  inversion H1 as [|? ? Hp H1']; inversion H2 as [|? ? Hq H2']; subst.
  specialize (IH frame2 H1' H2').
  unfold clamped, channelDelta in *. lia.
Qed.

(** X4: on buffers whose channels lie in 0..255, as a [Uint8ClampedArray]
    guarantees, the difference of two frames of n pixels is an integer
    between 0 and 765 * n.  For the 649 x 480 canvas that is at most
    238,312,800, so the sum the loop builds stays an exact integer. *)
Theorem getFrameDifference_bounded (frame1 frame2 : list Pixel) :
  length frame1 = length frame2 ->
  Forall clamped frame1 ->
  Forall clamped frame2 ->
  exists d : Z,
    getFrameDifference (raster frame1) (raster frame2) = Js.Int d
    /\ 0 <= d <= 765 * Z.of_nat (length frame1)
    /\ (length frame1 = (width * height)%nat -> d <= 238312800 < 2 ^ 53).
Proof.
  intros Hlen H1 H2. exists (DifferenceSample frame1 frame2).
  split; [apply getFrameDifference_raster, Hlen|].
  pose proof (DifferenceSample_nonneg frame1 frame2).
  pose proof (DifferenceSample_bound frame1 frame2 H1 H2) as Hb.
  split; [lia|]. intros Hsize. rewrite Hsize in Hb.
  assert (Z.of_nat (width * height) = 311520) as Hwh
    by (unfold width, height; rewrite Nat2Z.inj_mul; reflexivity).
  rewrite Hwh in Hb. lia.
Qed.

Lemma getFrameDifference_bounded_witness :
  let frame1 := [mkPixel 255 255 255 255] in
  let frame2 := [mkPixel 0 0 0 0] in
  length frame1 = length frame2 /\ Forall clamped frame1 /\ Forall clamped frame2
  /\ exists d : Z,
       getFrameDifference (raster frame1) (raster frame2) = Js.Int d
       /\ 0 <= d <= 765 * Z.of_nat (length frame1)
       /\ (length frame1 = (width * height)%nat -> d <= 238312800 < 2 ^ 53).
Proof.
  intros frame1 frame2.
  assert (Forall clamped frame1) as H1
    by (repeat constructor; cbn; lia).
  assert (Forall clamped frame2) as H2
    by (repeat constructor; cbn; lia).
  split; [reflexivity|]. split; [exact H1|]. split; [exact H2|].
  exact (getFrameDifference_bounded frame1 frame2 eq_refl H1 H2).
Defined.

(** ** [getFrameDifference] on buffers of different lengths *)

Lemma pixelDifference_raster_more pre1 pre2 p q rest1 rest2 more :
  length pre1 = length pre2 ->
  pixelDifference (pre1 ++ raster (p :: rest1))
                  (pre2 ++ raster (q :: rest2) ++ more) (length pre1)
  = Js.Int (channelDelta p q).
Proof.
  intros Hlen. unfold pixelDifference.
  rewrite <- (Nat.add_0_r (length pre1)) at 1 2.
  rewrite Hlen at 2 4 6.
  rewrite !at_index_after. reflexivity.
Qed.

Lemma getFrameDifference_loop_raster_more frame1 :
  forall frame2 pre1 pre2 more acc,
    length pre1 = length pre2 ->
    length frame1 = length frame2 ->
    getFrameDifference_loop (pre1 ++ raster frame1)
                            (pre2 ++ raster frame2 ++ more)
                            (length pre1) (Js.Int acc)
    = Js.Int (acc + DifferenceSample frame1 frame2).
Proof.
  induction frame1 as [|p frame1 IH];
    intros [|q frame2] pre1 pre2 more acc Hpre Hlen;
    cbn [length] in Hlen; try discriminate.
  - rewrite getFrameDifference_loop_step.
    rewrite decide_False by (rewrite length_app; simpl; lia).
    cbn [DifferenceSample]. f_equal. lia.
  - rewrite getFrameDifference_loop_step.
    rewrite decide_True
      by (rewrite length_app, length_raster; simpl; lia).
    rewrite pixelDifference_raster_more by assumption. simpl Js.add.
    rewrite !raster_cons, <- !(app_assoc (channels _)), !(app_assoc _ (channels _)).
    replace (length pre1 + 4)%nat with (length (pre1 ++ channels p))
      by (rewrite length_app; reflexivity).
    rewrite IH by (rewrite ?length_app; simpl; lia).
    cbn [DifferenceSample]. f_equal. lia.
Qed.

(** X5: the loop runs over the length of its first argument only: what
    the second buffer holds beyond the pixels of the first is never read
    and does not change the result. *)
Theorem getFrameDifference_ignores_extra
    (frame1 frame2 : list Pixel) (more : list Z) :
  length frame1 = length frame2 ->
  getFrameDifference (raster frame1) (raster frame2 ++ more)
  = getFrameDifference (raster frame1) (raster frame2).
Proof.
  intros Hlen. rewrite (getFrameDifference_raster _ _ Hlen).
  unfold getFrameDifference.
  apply (getFrameDifference_loop_raster_more frame1 frame2 [] [] more 0); auto.
Qed.

Lemma getFrameDifference_ignores_extra_witness :
  let frame1 := [mkPixel 10 20 30 255] in
  let frame2 := [mkPixel 13 20 10 0] in
  length frame1 = length frame2
  /\ getFrameDifference (raster frame1) (raster frame2 ++ [9; 9; 9; 9; 9])
     = getFrameDifference (raster frame1) (raster frame2).
Proof.
  intros frame1 frame2. split; [reflexivity|].
  exact (getFrameDifference_ignores_extra frame1 frame2 [9; 9; 9; 9; 9] eq_refl).
Defined.

Lemma add_NaN_r (a : Js.number) : Js.add a Js.NaN = Js.NaN.
Proof. destruct a; reflexivity. Qed.

(** Once the running sum is NaN it stays NaN. *)
Lemma getFrameDifference_loop_NaN data1 data2 (n : nat) :
  forall i, (length data1 - i <= n)%nat ->
            getFrameDifference_loop data1 data2 i Js.NaN = Js.NaN.
Proof.
  induction n as [|n IH]; intros i Hn; rewrite getFrameDifference_loop_step;
    case_decide; try reflexivity; try lia.
  apply IH. lia.
Qed.

(** One iteration that reads past the end of a buffer spoils the sum. *)
Lemma getFrameDifference_loop_hits_NaN data1 data2 (k : nat) :
  forall i acc,
    (i + 4 * k < length data1)%nat ->
    pixelDifference data1 data2 (i + 4 * k) = Js.NaN ->
    getFrameDifference_loop data1 data2 i acc = Js.NaN.
Proof.
  induction k as [|k IH]; intros i acc Hin Hnan;
    rewrite getFrameDifference_loop_step, decide_True by lia.
  - rewrite Nat.mul_0_r, Nat.add_0_r in Hnan. rewrite Hnan, add_NaN_r.
    apply (getFrameDifference_loop_NaN _ _ (length data1)). lia.
  - apply IH; [lia|].
    replace (i + 4 + 4 * k)%nat with (i + 4 * S k)%nat by lia. exact Hnan.
Qed.

(** X6: a stored buffer that ends two or more elements before the
    current one makes the loop read [undefined]; the difference is then
    NaN, which is not above the threshold, so the tick reports nothing and
    only stores the current sample. *)
Theorem short_stored_sample_gives_NaN
    (frame : list Pixel) (stored : list Z) (isLocal latch : bool) :
  (length stored + 2 <= length (raster frame))%nat ->
  getFrameDifference (raster frame) stored = Js.NaN
  /\ checkForMotion isLocal (Sampled (mkImageData (raster frame)))
       (mkDetector (Some (mkImageData stored)) latch)
     = (mkDetector (Some (mkImageData (raster frame))) latch, []).
Proof.
  intros Hshort.
  assert (getFrameDifference (raster frame) stored = Js.NaN) as Hnan.
  { rewrite length_raster in Hshort.
    destruct frame as [|p frame] using rev_ind; [cbn in Hshort; lia|].
    clear IHframe. rewrite length_app in Hshort. cbn [length] in Hshort.
    unfold getFrameDifference.
    apply (getFrameDifference_loop_hits_NaN _ _ (length frame) 0).
    - rewrite length_raster, length_app. cbn. lia.
    - unfold pixelDifference, at_index.
      rewrite (lookup_ge_None_2 stored (0 + 4 * length frame + 2)) by lia.
      destruct (raster (frame ++ [p]) !! (0 + 4 * length frame + 2)%nat);
        cbn [Js.sub Js.abs]; apply add_NaN_r. }
  split; [exact Hnan|].
  apply checkForMotion_below. cbn [data]. rewrite Hnan. reflexivity.
Qed.

Lemma short_stored_sample_gives_NaN_witness :
  (length [13; 20] + 2 <= length (raster [mkPixel 10 20 30 255]))%nat
  /\ getFrameDifference (raster [mkPixel 10 20 30 255]) [13; 20] = Js.NaN.
Proof.
  assert (length [13; 20] + 2 <= length (raster [mkPixel 10 20 30 255]))%nat
    as Hshort by (vm_compute; lia).
  split; [exact Hshort|].
  exact (proj1 (short_stored_sample_gives_NaN
                  [mkPixel 10 20 30 255] [13; 20] true false Hshort)).
Defined.

(** ** The detector over whole tick sequences *)

Lemma checkForMotion_unsampled isLocal src st :
  is_Sampled src = false ->
  fst (checkForMotion isLocal src st) = st
  /\ filter (fun e => is_ConsoleError e = false) (snd (checkForMotion isLocal src st))
     = [].
Proof. destruct src; [auto | auto | discriminate]. Qed.

Lemma checkForMotion_sampled_effects isLocal imageData st :
  filter (fun e => is_ConsoleError e = false)
         (snd (checkForMotion isLocal (Sampled imageData) st))
  = snd (checkForMotion isLocal (Sampled imageData) st).
Proof.
  destruct st as [[last|] latch]; cbn; [|reflexivity].
  destruct (Js.gt _ _ && negb latch); [destruct isLocal|]; reflexivity.
Qed.

(** X7: ticks that find no usable source are transparent.  Leaving the
    [Detached] and [NotVideo] ticks out of any tick sequence gives the same
    detector variables at the end and the same effects in the same order,
    apart from the console errors of the [NotVideo] ticks. *)
Theorem unavailable_ticks_are_transparent
    (isLocal : bool) (srcs : list Source) (st : Detector) :
  detectorAfter isLocal (filter (fun src => is_Sampled src = true) srcs) st
    = detectorAfter isLocal srcs st
  /\ concat (ticks isLocal (filter (fun src => is_Sampled src = true) srcs) st)
     = filter (fun e => is_ConsoleError e = false) (concat (ticks isLocal srcs st)).
Proof.
  revert st. induction srcs as [|src rest IH]; intros st; [split; reflexivity|].
  rewrite filter_cons, ticks_cons. cbn [detectorAfter concat].
  rewrite filter_app.
  destruct (is_Sampled src) eqn:Hsrc.
  - rewrite decide_True by reflexivity.
    destruct src as [| |imageData]; try discriminate.
    rewrite ticks_cons. cbn [detectorAfter concat].
    rewrite checkForMotion_sampled_effects.
    destruct (IH (fst (checkForMotion isLocal (Sampled imageData) st))) as [-> ->].
    split; reflexivity.
  - rewrite decide_False by discriminate.
    destruct (checkForMotion_unsampled isLocal src st Hsrc) as [-> ->].
    exact (IH st).
Qed.

Lemma starts_of_tick isLocal src st :
  length (filter (fun e => is_StartRecording e = true)
                 (snd (checkForMotion isLocal src st)))
  = if isLocal then detections (snd (checkForMotion isLocal src st)) else 0%nat.
Proof.
  destruct src as [| |imageData]; [destruct isLocal; reflexivity ..|].
  destruct st as [[last|] latch]; cbn; [|destruct isLocal; reflexivity].
  destruct (Js.gt _ _ && negb latch); destruct isLocal; reflexivity.
Qed.

(** X8: a recording is started only by a local detector, and then on
    exactly the ticks that report motion: a remote detector never calls
    [startRecording], and a fresh local detector calls it at most once
    over its whole life. *)
Theorem recording_started_only_by_local_detection
    (isLocal : bool) (srcs : list Source) (st : Detector) :
  (fun effects => length (filter (fun e => is_StartRecording e = true) effects))
    <$> ticks isLocal srcs st
  = (fun effects => if isLocal then detections effects else 0%nat)
    <$> ticks isLocal srcs st
  /\ (length (filter (fun e => is_StartRecording e = true)
               (concat (ticks isLocal srcs detectMotion))) <= 1)%nat.
Proof.
  assert (forall st',
    (fun effects => length (filter (fun e => is_StartRecording e = true) effects))
      <$> ticks isLocal srcs st'
    = (fun effects => if isLocal then detections effects else 0%nat)
      <$> ticks isLocal srcs st') as Hall.
  { induction srcs as [|src rest IH]; intros st'; [reflexivity|].
    rewrite ticks_cons, !fmap_cons, IH, starts_of_tick. reflexivity. }
  split; [apply Hall|].
  assert (forall effectss : list (list Effect),
    length (filter (fun e => is_StartRecording e = true) (concat effectss))
    = sum_list ((fun effects =>
        length (filter (fun e => is_StartRecording e = true) effects)) <$> effectss))
    as Hsum.
  { induction effectss as [|effects effectss IH]; [reflexivity|].
    cbn [concat fmap list_fmap sum_list sum_list_with].
    rewrite filter_app, length_app.
    change (list_fmap _ _ ?f ?l) with (f <$> l). rewrite IH. reflexivity. }
  rewrite Hsum, Hall.
  destruct isLocal.
  - destruct (ticks_idle true srcs detectMotion eq_refl) as [Hticks _].
    change (sum_list (detections <$> ticks true srcs detectMotion) <= 1)%nat.
    rewrite Hticks. apply sum_list_firstOnly.
  - clear. induction (ticks false srcs detectMotion); cbn; auto.
Qed.

(** X9: the stored sample is a rolling one: after any ticks, and whatever
    the latch and the threshold did, [lastImageData] is the frame of the
    latest tick that sampled one, or still the earlier stored frame when
    no tick did. *)
Theorem lastImageData_is_latest_sample
    (isLocal : bool) (srcs : list Source) (st : Detector) :
  lastImageData (detectorAfter isLocal srcs st)
  = match last (omap sampled srcs) with
    | Some imageData => Some imageData
    | None => lastImageData st
    end.
Proof.
  revert st. induction srcs as [|src rest IH]; intros st; [reflexivity|].
  cbn [detectorAfter]. rewrite IH, checkForMotion_lastImageData.
  destruct src as [| |imageData]; cbn [omap list_omap sampled sampleOf];
    try reflexivity.
  change (list_omap _ _ sampled rest) with (omap sampled rest).
  rewrite last_cons. destruct (last (omap sampled rest)); reflexivity.
Qed.

(** X10: the only thing a tick without a usable source leaves behind is
    one console error when the element is missing or no video element;
    the number of console errors of a tick sequence is the number of such
    ticks, and a detached track is skipped silently. *)
Theorem console_errors_count_bad_elements
    (isLocal : bool) (srcs : list Source) (st : Detector) :
  length (filter (fun e => is_ConsoleError e = true) (concat (ticks isLocal srcs st)))
  = length (filter (fun src => is_NotVideo src = true) srcs).
Proof.
  revert st. induction srcs as [|src rest IH]; intros st; [reflexivity|].
  rewrite ticks_cons. cbn [concat]. rewrite filter_app, length_app, IH, filter_cons.
  destruct src as [| |imageData]; try reflexivity.
  rewrite decide_False by discriminate.
  destruct st as [[last|] latch]; cbn; [|reflexivity].
  destruct (Js.gt _ _ && negb latch); [destruct isLocal|]; reflexivity.
Qed.

(** ** The event loop: what no event ever does *)

Lemma stop_stop (rec : MediaRecorder) : stop (stop rec) = stop rec.
Proof. reflexivity. Qed.

(** The timeouts that are due, run one after the other. *)
Lemma foldl_fire_fields (ts : list Timer) :
  forall w : World,
    foldl (fun w timer => fire timer w) w ts =
    mkWorld (now w) (mediaRecorder w) (recordedChunks w)
            (match ts, mediaRecorder w with
             | _ :: _, Some r => alter stop r (recorders w)
             | _, _ => recorders w
             end)
            (timers w) (videos w) (gifUrls w)
            (console w ++ replicate (length ts) (Log "Stopping recording...")).
Proof.
  induction ts as [|[d []] ts IH]; intros w.
  - cbn. rewrite app_nil_r. destruct w; reflexivity.
  - cbn [foldl]. rewrite IH.
    unfold fire, stopRecordingTimeout, onMediaRecorder, console_log.
    cbn [callback mediaRecorder set_console].
    destruct w as [t mr chunks rs tms vs urls out]. cbn.
    destruct mr as [r|]; cbn; rewrite <- app_assoc; cbn;
      destruct ts; cbn; try reflexivity.
    rewrite list_alter_alter_eq. reflexivity.
Qed.

Lemma elapse_fields (ms : N) (w : World) :
  elapse ms w =
  mkWorld (now w + ms) (mediaRecorder w) (recordedChunks w)
          (match filter (fun timer => (due timer <= now w + ms)%N) (timers w),
                 mediaRecorder w with
           | _ :: _, Some r => alter stop r (recorders w)
           | _, _ => recorders w
           end)
          (filter (fun timer => ~ (due timer <= now w + ms)%N) (timers w))
          (videos w) (gifUrls w)
          (console w
             ++ replicate
                  (length (filter (fun timer => (due timer <= now w + ms)%N) (timers w)))
                  (Log "Stopping recording...")).
Proof. unfold elapse. rewrite foldl_fire_fields. reflexivity. Qed.

(** What an event appends to the chunk buffer. *)
Lemma recordedChunks_handle (e : Event) (w : World) :
  exists more : list Blob,
    recordedChunks (handle e w) = recordedChunks w ++ more
    /\ Forall (fun chunk => (0 < size chunk)%nat) more.
Proof.
  assert (exists more : list Blob,
            recordedChunks w = recordedChunks w ++ more
            /\ Forall (fun chunk => (0 < size chunk)%nat) more) as Hsame
    by (exists []; rewrite app_nil_r; auto).
  destruct e as [[|]|ms|r chunk|r|v|v|v|v t c|v|blob]; cbn [handle].
  - rewrite startRecording_fields. exact Hsame.
  - exact Hsame.
  - rewrite elapse_fields. exact Hsame.
  - destruct (recorders w !! r ≫= ondataavailable) as [[]|]; [|exact Hsame].
    rewrite dataavailable_fields. cbn [recordedChunks].
    eexists. split; [reflexivity|].
    rewrite filter_cons, filter_nil. case_decide; repeat constructor; auto.
  - destruct (recorders w !! r ≫= onstop) as [[]|]; exact Hsame.
  - case_decide; exact Hsame.
  - exact Hsame.
  - exact Hsame.
  - exact Hsame.
  - case_decide; exact Hsame.
  - exact Hsame.
Qed.

(** X11: whatever happens, chunks are only ever appended to
    [recordedChunks]: no event removes or reorders a stored chunk, and no
    chunk of size 0 is ever stored. *)
Theorem recordedChunks_only_grows (events : list Event) (w : World) :
  exists more : list Blob,
    recordedChunks (run events w) = recordedChunks w ++ more
    /\ Forall (fun chunk => (0 < size chunk)%nat) more.
Proof.
  revert w. induction events as [|e events IH]; intros w.
  - exists []. cbn. rewrite app_nil_r. auto.
  - cbn [run foldl]. change (foldl _ ?x events) with (run events x).
    destruct (IH (handle e w)) as (more2 & Heq2 & Hall2).
    destruct (recordedChunks_handle e w) as (more1 & Heq1 & Hall1).
    exists (more1 ++ more2). rewrite Heq2, Heq1, app_assoc.
    split; [reflexivity | apply Forall_app; auto].
Qed.

(** X12: a timeout only ever stops the recorder that [mediaRecorder]
    names when it runs; however much time passes, every other recorder is
    left exactly as it is. *)
Theorem timeout_stops_only_the_named_recorder (w : World) (r : nat) (ms : N) :
  mediaRecorder w <> Some r ->
  recorders (elapse ms w) !! r = recorders w !! r.
Proof.
  intros Hother. rewrite elapse_fields. cbn [recorders].
  destruct (filter _ (timers w)); [reflexivity|].
  destruct (mediaRecorder w) as [named|]; [|reflexivity].
  apply list_lookup_alter_ne. congruence.
Qed.

Lemma timeout_stops_only_the_named_recorder_witness :
  let w := startRecording true (startRecording true initial) in
  mediaRecorder w <> Some 0%nat
  /\ recorders (elapse 5000 w) !! 0%nat = Some startedRecorder.
Proof.
  intros w.
  assert (mediaRecorder w <> Some 0%nat) as Hother by (vm_compute; discriminate).
  split; [exact Hother|].
  exact (timeout_stops_only_the_named_recorder w 0 5000 Hother).
Defined.

(** Events other than a start and the passing of time leave the clock,
    the timers, the recorders and [mediaRecorder] alone. *)
Lemma handle_keeps_recorders (e : Event) (w : World) :
  is_recordingEvent e = false ->
  now (handle e w) = now w /\ timers (handle e w) = timers w
  /\ recorders (handle e w) = recorders w
  /\ mediaRecorder (handle e w) = mediaRecorder w.
Proof.
  intros He. destruct e as [b|ms|r chunk|r|v|v|v|v t c|v|blob];
    try discriminate; cbn [handle].
  - destruct (recorders w !! r ≫= ondataavailable) as [[]|]; [|auto].
    rewrite dataavailable_fields. auto.
  - destruct (recorders w !! r ≫= onstop) as [[]|]; auto.
  - case_decide; auto.
  - auto.
  - auto.
  - auto.
  - case_decide; auto.
  - auto.
Qed.

Lemma startRecording_without_element (w : World) :
  startRecording false w
  = console_error "No video element found for recording." w.
Proof. reflexivity. Qed.

Lemma timers_handle (e : Event) (w : World) :
  Forall (fun timer => (now w < due timer <= now w + 5000)%N) (timers w) ->
  Forall (fun timer => (now (handle e w) < due timer <= now (handle e w) + 5000)%N)
         (timers (handle e w)).
Proof.
  intros Hw. destruct (is_recordingEvent e) eqn:He.
  - destruct e as [b|ms|r c|r|v|v|v|v t c|v|blob]; try discriminate;
      [destruct b|]; cbn [handle].
    + rewrite startRecording_fields. cbn [now timers].
      apply Forall_app. split; [exact Hw|]. repeat constructor; cbn; lia.
    + exact Hw.
    + rewrite elapse_fields. cbn [now timers].
      apply Forall_forall. intros timer Hin.
      apply list_elem_of_filter in Hin as [Hlater Hin].
      rewrite Forall_forall in Hw. specialize (Hw timer Hin). lia.
  - destruct (handle_keeps_recorders e w He) as (-> & -> & _). exact Hw.
Qed.

(** X13: every pending timeout is due after the present moment and at
    most 5000 ms from it, whatever has happened since the module was
    loaded; so once 5000 ms pass, no timeout is left pending. *)
Theorem pending_timeouts_are_due_within_5000ms (events : list Event) :
  Forall (fun timer => (now (run events initial) < due timer
                        <= now (run events initial) + 5000)%N)
         (timers (run events initial))
  /\ timers (handle (Elapse 5000) (run events initial)) = [].
Proof.
  assert (forall w,
    Forall (fun timer => (now w < due timer <= now w + 5000)%N) (timers w) ->
    Forall (fun timer => (now (run events w) < due timer
                          <= now (run events w) + 5000)%N)
           (timers (run events w))) as Hrun.
  { induction events as [|e events IH]; intros w Hw; [exact Hw|].
    cbn [run foldl]. apply IH, timers_handle, Hw. }
  specialize (Hrun initial (Forall_nil_2 _)).
  split; [exact Hrun|].
  cbn [handle]. rewrite elapse_fields. cbn [timers].
  induction (timers (run events initial)) as [|timer ts IH]; [reflexivity|].
  inversion Hrun as [|? ? Htimer Hts]; subst.
  rewrite filter_cons_False by (intros Hn; apply Hn; lia). auto.
Qed.

Lemma length_filter_complement {A} (P : A -> Prop) `{!forall x, Decision (P x)}
    (l : list A) :
  (length (filter P l) + length (filter (fun x => ~ P x) l))%nat = length l.
Proof.
  induction l as [|x l IH]; [reflexivity|].
  rewrite !filter_cons. destruct (decide (P x)) as [HP|HP].
  - rewrite decide_False by tauto. cbn. lia.
  - rewrite decide_True by exact HP. cbn. lia.
Qed.

Lemma written_app (entry : ConsoleEntry) (w : World) (out : list ConsoleEntry) :
  length (filter (fun e => e = entry) (console w ++ out))
  = (written entry w + length (filter (fun e => e = entry) out))%nat.
Proof. unfold written. rewrite filter_app, length_app. reflexivity. Qed.

Lemma filter_replicate_same (entry : ConsoleEntry) (n : nat) :
  length (filter (fun e => e = entry) (replicate n entry)) = n.
Proof.
  induction n as [|n IH]; [reflexivity|].
  cbn [replicate]. rewrite filter_cons_True by reflexivity. cbn. lia.
Qed.

Lemma filter_replicate_other (entry other : ConsoleEntry) (n : nat) :
  other <> entry ->
  length (filter (fun e => e = entry) (replicate n other)) = 0%nat.
Proof.
  intros Hne. induction n as [|n IH]; [reflexivity|].
  cbn [replicate]. rewrite filter_cons_False by exact Hne. exact IH.
Qed.

Lemma console_handle (e : Event) (w : World) :
  is_recordingEvent e = false ->
  exists out : list ConsoleEntry,
    console (handle e w) = console w ++ out
    /\ Forall (fun entry => entry <> startLog /\ entry <> stopLog) out.
Proof.
  assert (exists out : list ConsoleEntry,
            console w = console w ++ out
            /\ Forall (fun entry => entry <> startLog /\ entry <> stopLog) out)
    as Hsame by (exists []; rewrite app_nil_r; auto).
  intros He. destruct e as [b|ms|r chunk|r|v|v|v|v t c|v|blob];
    try discriminate; cbn [handle].
  - destruct (recorders w !! r ≫= ondataavailable) as [[]|]; [|exact Hsame].
    rewrite dataavailable_fields. cbn [console].
    eexists. split; [reflexivity|].
    case_decide; repeat constructor; discriminate.
  - destruct (recorders w !! r ≫= onstop) as [[]|]; [|exact Hsame].
    cbn. rewrite <- app_assoc. eexists. split; [reflexivity|].
    repeat constructor; discriminate.
  - case_decide; [|exact Hsame].
    cbn. eexists. split; [reflexivity|]. repeat constructor; discriminate.
  - exact Hsame.
  - exact Hsame.
  - exact Hsame.
  - case_decide; [|exact Hsame].
    cbn. eexists. split; [reflexivity|]. repeat constructor; discriminate.
  - cbn. rewrite <- app_assoc. eexists. split; [reflexivity|].
    repeat constructor; discriminate.
Qed.

Lemma filter_none (entry : ConsoleEntry) (out : list ConsoleEntry) :
  Forall (fun e => e <> entry) out ->
  length (filter (fun e => e = entry) out) = 0%nat.
Proof.
  induction 1 as [|e out He _ IH]; [reflexivity|].
  rewrite filter_cons_False by exact He. exact IH.
Qed.

Lemma accounting_handle (e : Event) (w : World) :
  written startLog w = (written stopLog w + length (timers w))%nat ->
  written startLog (handle e w)
  = (written stopLog (handle e w) + length (timers (handle e w)))%nat.
Proof.
  intros Hw. destruct (is_recordingEvent e) eqn:He.
  - destruct e as [b|ms|r c|r|v|v|v|v t c|v|blob]; try discriminate;
      [destruct b|]; cbn [handle].
    + rewrite startRecording_fields. unfold written at 1 2. cbn [console timers].
      rewrite !written_app, length_app.
      rewrite (filter_cons_True (fun e => e = startLog)) by reflexivity.
      rewrite (filter_cons_False (fun e => e = stopLog)) by discriminate.
      cbn. lia.
    + rewrite startRecording_without_element.
      unfold console_error, written at 1 2. cbn [console timers set_console].
      rewrite !written_app.
      rewrite !filter_cons_False by discriminate. cbn. lia.
    + rewrite elapse_fields. unfold written at 1 2. cbn [console timers].
      rewrite !written_app.
      rewrite (filter_replicate_other startLog stopLog) by discriminate.
      rewrite (filter_replicate_same stopLog).
      pose proof (length_filter_complement
                    (fun timer => (due timer <= now w + ms)%N) (timers w)).
      lia.
  - destruct (handle_keeps_recorders e w He) as (_ & -> & _).
    destruct (console_handle e w He) as (out & Hout & Hnone).
    unfold written at 1 2. rewrite Hout, !written_app.
    rewrite !filter_none; [lia | |].
    + eapply Forall_impl; [exact Hnone | intros ? []; assumption].
    + eapply Forall_impl; [exact Hnone | intros ? []; assumption].
Qed.

(** X14: the timeout of a recording is one-shot.  At any moment the
    number of recordings started equals the number of timeouts that have
    run plus the number still pending: every start sets exactly one
    timeout, and no timeout runs twice. *)
Theorem every_start_has_one_timeout (events : list Event) :
  written startLog (run events initial)
  = (written stopLog (run events initial) + length (timers (run events initial)))%nat
  /\ written startLog (run events initial) = length (recorders (run events initial)).
Proof.
  assert (forall w,
    written startLog w = (written stopLog w + length (timers w))%nat
    /\ written startLog w = length (recorders w) ->
    written startLog (run events w)
    = (written stopLog (run events w) + length (timers (run events w)))%nat
    /\ written startLog (run events w) = length (recorders (run events w))) as Hrun.
  { induction events as [|e events IH]; intros w Hw; [exact Hw|].
    cbn [run foldl]. apply IH. destruct Hw as [Hw Hrec].
    split; [apply accounting_handle, Hw|].
    destruct (is_recordingEvent e) eqn:He.
    - destruct e as [b|ms|r c|r|v|v|v|v t c|v|blob]; try discriminate;
        [destruct b|]; cbn [handle].
      + rewrite startRecording_fields. unfold written. cbn [console recorders].
        rewrite written_app, length_app, filter_cons_True by reflexivity.
        cbn. lia.
      + rewrite startRecording_without_element.
        unfold console_error, written. cbn [console recorders set_console].
        rewrite written_app, filter_cons_False by discriminate. cbn. lia.
      + rewrite elapse_fields. unfold written. cbn [console recorders].
        rewrite written_app, (filter_replicate_other startLog stopLog)
          by discriminate.
        destruct (filter _ (timers w)); [lia|].
        destruct (mediaRecorder w); rewrite ?length_alter; lia.
    - destruct (handle_keeps_recorders e w He) as (_ & _ & -> & _).
      destruct (console_handle e w He) as (out & Hout & Hnone).
      unfold written. rewrite Hout, written_app, filter_none; [lia|].
      eapply Forall_impl; [exact Hnone | intros ? []; assumption]. }
  apply Hrun. split; reflexivity.
Qed.

(** One event on a world in which [mediaRecorder] names the newest
    recorder: it still does afterwards, no recorder has gone, and the
    recorders older than the newest are as they were. *)
Lemma newest_handle (e : Event) (w : World) :
  mediaRecorder w = newestRecorder w ->
  mediaRecorder (handle e w) = newestRecorder (handle e w)
  /\ (length (recorders w) <= length (recorders (handle e w)))%nat
  /\ forall r, (S r < length (recorders w))%nat ->
               recorders (handle e w) !! r = recorders w !! r.
Proof.
  intros Hw. destruct (is_recordingEvent e) eqn:He.
  - destruct e as [b|ms|r c|r|v|v|v|v t c|v|blob]; try discriminate;
      [destruct b|]; cbn [handle].
    + rewrite startRecording_fields. unfold newestRecorder.
      cbn [mediaRecorder recorders]. rewrite length_app. cbn [length].
      rewrite Nat.add_1_r. split; [reflexivity|]. split; [lia|].
      intros r Hr. apply lookup_app_l. lia.
    + auto.
    + rewrite elapse_fields. unfold newestRecorder in *.
      cbn [mediaRecorder recorders].
      destruct (filter _ (timers w)); [auto|].
      destruct (mediaRecorder w) as [named|] eqn:Hnamed; [|auto].
      rewrite length_alter. split; [exact Hw|]. split; [lia|].
      intros r Hr. apply list_lookup_alter_ne.
      destruct (length (recorders w)); [discriminate|].
      injection Hw as ->. lia.
  - destruct (handle_keeps_recorders e w He) as (_ & _ & Hrs & Hmr).
    unfold newestRecorder. rewrite Hrs, Hmr. auto.
Qed.

Lemma newest_run (events : list Event) :
  forall w : World,
    mediaRecorder w = newestRecorder w ->
    mediaRecorder (run events w) = newestRecorder (run events w)
    /\ (length (recorders w) <= length (recorders (run events w)))%nat
    /\ forall r, (S r < length (recorders w))%nat ->
                 recorders (run events w) !! r = recorders w !! r.
Proof.
  induction events as [|e events IH]; intros w Hw; [auto|].
  cbn [run foldl]. change (foldl _ ?x events) with (run events x).
  destruct (newest_handle e w Hw) as (Hnew & Hlen & Hold).
  destruct (IH (handle e w) Hnew) as (Hnew' & Hlen' & Hold').
  split; [exact Hnew'|]. split; [lia|].
  intros r Hr. rewrite Hold' by lia. apply Hold, Hr.
Qed.

(** X15: [mediaRecorder] always names the recorder created last, and
    once a newer recorder exists an older one is frozen: no later event,
    and no amount of time, changes it.  An older recorder that was still
    recording when the next recording started is therefore never
    stopped. *)
Theorem older_recorders_are_frozen (events more : list Event) (r : nat) :
  (S r < length (recorders (run events initial)))%nat ->
  mediaRecorder (run events initial) = newestRecorder (run events initial)
  /\ recorders (run (events ++ more) initial) !! r
     = recorders (run events initial) !! r.
Proof.
  intros Hr.
  destruct (newest_run events initial eq_refl) as (Hnew & _ & _).
  split; [exact Hnew|].
  rewrite run_app.
  destruct (newest_run more (run events initial) Hnew) as (_ & _ & Hold).
  apply Hold, Hr.
Qed.

Lemma older_recorders_are_frozen_witness :
  let events := [CallStartRecording true; Elapse 1000; CallStartRecording true] in
  let more := [Elapse 4000; Elapse 1000; Elapse 60000] in
  (1 < length (recorders (run events initial)))%nat
  /\ recorders (run (events ++ more) initial) !! 0%nat = Some startedRecorder.
Proof.
  intros events more.
  assert (1 < length (recorders (run events initial)))%nat as Hr
    by (vm_compute; lia).
  split; [exact Hr|].
  exact (proj2 (older_recorders_are_frozen events more 0 Hr)).
Defined.

(** X16: the clip of a video is a snapshot.  Once [generateGif] has
    built a video, no later event removes it or changes its source blob:
    chunks that arrive afterwards do not reach a clip already built. *)
Theorem video_source_is_a_snapshot
    (events : list Event) (w : World) (v : nat) (video : HTMLVideoElement) :
  videos w !! v = Some video ->
  src <$> videos (run events w) !! v = Some (src video)
  /\ muted <$> videos (run events w) !! v = Some (muted video).
Proof.
  assert (forall e w0 video0,
    videos w0 !! v = Some video0 ->
    exists video1, videos (handle e w0) !! v = Some video1
                   /\ src video1 = src video0 /\ muted video1 = muted video0)
    as Hstep.
  { intros e w0 video0 Hv.
    assert (v < length (videos w0))%nat as Hlt by (eapply lookup_lt_Some; eauto).
    assert (forall f, (forall x, src (f x) = src x /\ muted (f x) = muted x) ->
              forall u, exists video1,
                alter f u (videos w0) !! v = Some video1
                /\ src video1 = src video0 /\ muted video1 = muted video0)
      as Halter.
    { intros f Hf u. destruct (decide (u = v)) as [->|Hne].
      - exists (f video0). rewrite list_lookup_alter_eq, Hv.
        destruct (Hf video0). auto.
      - exists video0. rewrite list_lookup_alter_ne by exact Hne. auto. }
    destruct e as [[|]|ms|r chunk|r|u|u|u|u t c|u|blob]; cbn [handle].
    - rewrite startRecording_fields. eauto.
    - eauto.
    - rewrite elapse_fields. eauto.
    - destruct (recorders w0 !! r ≫= ondataavailable) as [[]|]; [|eauto].
      rewrite dataavailable_fields. eauto.
    - destruct (recorders w0 !! r ≫= onstop) as [[]|]; [|eauto].
      cbn. exists video0. rewrite lookup_app_l by exact Hlt. auto.
    - case_decide; [|eauto]. cbn. apply Halter. intros []; auto.
    - cbn. apply Halter. intros []; auto.
    - eauto.
    - cbn. apply Halter. intros []; auto.
    - case_decide; eauto.
    - eauto. }
  revert w video. induction events as [|e events IH]; intros w video Hv.
  - cbn. rewrite Hv. auto.
  - cbn [run foldl]. change (foldl _ ?x events) with (run events x).
    destruct (Hstep e w video Hv) as (video1 & Hv1 & Hsrc & Hmuted).
    rewrite <- Hsrc, <- Hmuted. apply IH, Hv1.
Qed.

Lemma video_source_is_a_snapshot_witness :
  let w := recordingSession [] [Byte.x01] initial in
  let events := sessionEvents 1 [[Byte.x02]] [Byte.x03] ++ [LoadedData 0] in
  videos w !! 0%nat = Some (mkVideo [Byte.x01] true true [])
  /\ src <$> videos (run events w) !! 0%nat = Some [Byte.x01].
Proof.
  intros w events. split; [reflexivity|].
  exact (proj1 (video_source_is_a_snapshot events w 0
                  (mkVideo [Byte.x01] true true []) eq_refl)).
Defined.

(** ** The encoder over whole playbacks *)

Lemma feed_frames (updates : list (Q * Canvas)) :
  forall gif : GIF,
    frames (feed updates gif)
    = frames gif
      ++ (toFrame <$> (snd <$> filter (fun u => atEnd u = false) updates))
    /\ length (renders (feed updates gif))
       = (length (renders gif)
          + length (filter (fun u => atEnd u = true) updates))%nat
    /\ workers (feed updates gif) = workers gif
    /\ quality (feed updates gif) = quality gif.
Proof.
  induction updates as [|[t canvas] rest IH]; intros gif.
  - cbn. rewrite app_nil_r. auto.
  - rewrite feed_cons, !filter_cons. cbn [fst snd].
    unfold timeupdateListener.
    assert (atEnd (t, canvas) = Qle_bool (5 # 1) t) as Hat by reflexivity.
    destruct (Qle_bool (5 # 1) t); cbn [fst];
      match goal with |- context [feed rest ?g] =>
        destruct (IH g) as (-> & -> & -> & ->) end;
      cbn [frames renders workers quality render addFrame].
    + rewrite decide_False by (rewrite Hat; discriminate).
      rewrite decide_True by exact Hat.
      rewrite length_app. cbn [length]. repeat apply conj; auto; lia.
    + rewrite decide_True by exact Hat.
      rewrite decide_False by (rewrite Hat; discriminate).
      cbn [fmap list_fmap snd]. rewrite <- app_assoc.
      repeat apply conj; auto.
Qed.

Lemma feed_snapshots (updates : list (Q * Canvas)) :
  forall gif : GIF,
    Forall (fun snapshot => snapshot `prefix_of` frames gif) (renders gif) ->
    Forall (fun snapshot => snapshot `prefix_of` frames (feed updates gif))
           (renders (feed updates gif)).
Proof.
  induction updates as [|[t canvas] rest IH]; intros gif Hgif; [exact Hgif|].
  rewrite feed_cons. apply IH. cbn [fst snd]. unfold timeupdateListener.
  destruct (Qle_bool (5 # 1) t); cbn [fst frames renders render addFrame].
  - apply Forall_app. split; [exact Hgif|].
    constructor; [reflexivity | constructor].
  - eapply Forall_impl; [exact Hgif|]. intros snapshot Hpre.
    apply prefix_app_r, Hpre.
Qed.

(** X17: over a whole playback an encoder gets one frame of delay 100
    for every notification before 5 seconds, in their order, also for
    those that come after a [render()], and [render()] is called once for
    every notification at or past 5 seconds, not only for the first: the
    listener is never removed.  Every [render()] sees a prefix of the
    frames the encoder ends up with. *)
Theorem encoder_frames_and_render_calls (updates : list (Q * Canvas)) :
  frames (feed updates newGIF)
    = toFrame <$> (snd <$> filter (fun u => atEnd u = false) updates)
  /\ length (renders (feed updates newGIF))
     = length (filter (fun u => atEnd u = true) updates)
  /\ Forall (fun snapshot => snapshot `prefix_of` frames (feed updates newGIF))
            (renders (feed updates newGIF))
  /\ workers (feed updates newGIF) = 2%nat
  /\ quality (feed updates newGIF) = 10%nat.
Proof.
  destruct (feed_frames updates newGIF) as (Hf & Hr & Hw & Hq).
  repeat apply conj.
  - rewrite Hf. reflexivity.
  - rewrite Hr. reflexivity.
  - apply feed_snapshots. constructor.
  - rewrite Hw. reflexivity.
  - rewrite Hq. reflexivity.
Qed.




(** ** Detectors and recorder together *)







Lemma watchers_perform (text : string) (effects : list Effect) :
  forall p : Page,
    watchers (foldl (fun p e => perform text e p) p effects) = watchers p.
Proof.
  induction effects as [|e effects IH]; intros p; [reflexivity|].
  cbn [foldl]. rewrite IH. destruct e; reflexivity.
Qed.

(** X21: the detectors do not interfere with one another.  A tick of one
    detector leaves the stored sample and the latch of every other
    detector as they are, and no browser event touches any detector: each
    [detectMotion] call latches on its own. *)
Theorem detectors_are_independent
    (p : Page) (d other : nat) (src : Source) (e : Event) :
  d <> other ->
  watchers (intervalTick d src p) !! other = watchers p !! other
  /\ length (watchers (intervalTick d src p)) = length (watchers p)
  /\ watchers (handlePage (Browser e) p) = watchers p.
Proof.
  intros Hne. unfold intervalTick.
  destruct (watchers p !! d) as [watcher|]; [|auto].
  destruct (checkForMotion _ src _) as [st effects].
  rewrite watchers_perform. cbn [watchers].
  rewrite list_lookup_insert_ne by exact Hne. rewrite length_insert. auto.
Qed.

Lemma detectors_are_independent_witness :
  let p := runPage [DetectMotion true true "You moved";
                    DetectMotion true false "User 7 moved"] initialPage in
  let src := Sampled (mkImageData [0; 0; 0; 255]) in
  0%nat <> 1%nat
  /\ watchers (intervalTick 0 src p) !! 1%nat = watchers p !! 1%nat.
Proof.
  intros p src.
  assert (0%nat <> 1%nat) as Hne by lia.
  split; [exact Hne|].
  exact (proj1 (detectors_are_independent p 0 1 src (Elapse 0) Hne)).
Defined.
